(** * ImmoInvest: the financial engine of [immoinvest_app.py]

    A shallow embedding of the loan amortisation helpers
    ([mensualite_credit], [tableau_amortissement]) and of the projection
    method [ImmoApp._project_with_scenario], with the properties the
    specification states about them.

    Numbers.  The program computes on binary64 floats.  The embedding
    replaces them by exact rationals ([Q], compared with [==]): every
    statement below is a statement about the program's arithmetic carried
    out exactly.  Python [int]s are [Z].  The threshold [1e-12] is the
    rational 1/10^12.

    Exceptions.  A Python expression that can raise (division by a zero
    float, [0.0 ** negative], a missing dictionary key, a list index out
    of range) returns [None] in the embedding; the totality lemmas show
    where that cannot happen.

    Containers.  A [DataFrame] built from a list of rows is the list of
    its rows; a [dict] is a [gmap]; a list or array updated by index is a
    list with stdpp's insert. *)

From Stdlib Require Import QArith Qabs Qpower Qminmax Qround Lqa.
From stdpp Require Import gmap strings list fin_maps.

Local Open Scope Q_scope.

(** ** Python arithmetic on exact numbers *)

Module Py.

(** [max(a, b)]: the first argument, unless the second is strictly
    greater. *)
Definition max (a b : Q) : Q := if Qlt_le_dec a b then b else a.

(** [a / b] on floats raises [ZeroDivisionError] when [b] is zero. *)
Definition div (a b : Q) : option Q :=
  if Qeq_bool b 0 then None else Some (a / b).

(** [x ** k] with an integer exponent raises [ZeroDivisionError] when
    [x] is zero and [k] is negative. *)
Definition pow (x : Q) (k : Z) : option Q :=
  if Qeq_bool x 0 && (k <? 0)%Z then None else Some (x ^ k).

(** [sum(xs)]: a left fold that starts from the integer 0. *)
Definition sum (xs : list Q) : Q := fold_left Qplus xs 0.

End Py.

(** ** Finance helpers *)

(** The literal [1e-12]. *)
Definition epsilon : Q := 1 # 1000000000000.

Definition mensualite_credit (capital taux_annuel : Q) (duree_annees : Z)
  : option Q :=
  let n := (duree_annees * 12)%Z in
  let taux_mensuel := taux_annuel / 12 in
  if (n <=? 0)%Z then Some 0
  else if Qlt_le_dec (Qabs taux_mensuel) epsilon then
    Some (capital / inject_Z n)
  else
    p ← Py.pow (1 + taux_mensuel) (- n);
    d ← Py.div taux_mensuel (1 - p);
    Some (capital * d).

(** One line of the amortisation table (the columns of the DataFrame). *)
Record Row := mkRow {
  month_index : Z;
  year : Z;
  month : Z;
  payment : Q;
  interest : Q;
  principal : Q;
  balance : Q
}.

(** The body of the loop [for i in range(1, n+1)]: the state is the
    running [balance] and the [rows] appended so far. *)
Definition amort_step (r m : Q) (st : Q * list Row) (i : Z) : Q * list Row :=
  let '(balance, rows) := st in
  let interest := balance * r in
  let principal := Py.max (m - interest) 0 in
  let balance := Py.max 0 (balance - principal) in
  let year := ((i - 1) / 12 + 1)%Z in
  let month := ((i - 1) mod 12 + 1)%Z in
  (balance, rows ++ [mkRow i year month m interest principal balance]).

Definition tableau_amortissement (capital taux_annuel : Q) (duree_annees : Z)
  : option (list Row) :=
  let n := (duree_annees * 12)%Z in
  if (n <=? 0)%Z then Some []
  else
    let r := taux_annuel / 12 in
    m ← mensualite_credit capital taux_annuel duree_annees;
    Some (snd (fold_left (amort_step r m) (seqZ 1 n) (capital, []))).

(** ** Scenario hypotheses (A/B) *)

Record HypScenario := mkHyp {
  name : string;
  revalo_loyers : Q;
  idx_assurance : Q;
  idx_copro : Q;
  idx_taxe : Q;
  idx_assu_empr : Q;
  idx_autres : Q;
  tmi : Q;
  ps : Q;
  duree_projection : Z
}.

(** [HypScenario(name)]: the defaults set by [__init__]. *)
Definition HypScenario_init (name : string) : HypScenario :=
  mkHyp name (15 # 1000) (10 # 1000) (10 # 1000) (12 # 1000) (10 # 1000)
        (10 # 1000) (30 # 100) (172 # 1000) 15.

(** ** Properties and the application object *)

(** A property is the dict built by [add_bien]; [mensualite] and [amort]
    are stored in it when it is created.  [amort] is optional because
    the projection tests [df_am is not None]. *)
Record Bien := mkBien {
  nom : string;
  prix : Q;
  emprunt : Q;
  duree : Z;
  taux : Q;
  loyer : Q;
  charges : gmap string Q;
  mensualite : Q;
  amort : option (list Row)
}.

Record ImmoApp := mkApp {
  biens : list Bien;
  hypA : HypScenario;
  hypB : HypScenario
}.

(** The [save] closure of [add_bien], after the form entries have been
    parsed: it derives [mensualite] and [amort] and appends the property.
    An exception leaves the application unchanged (an error box is
    shown). *)
Definition add_bien (nom : string) (prix emprunt : Q) (duree : Z)
    (taux loyer : Q) (charges : gmap string Q) (self : ImmoApp) : ImmoApp :=
  match mensualite_credit emprunt taux duree,
        tableau_amortissement emprunt taux duree with
  | Some m, Some df =>
      mkApp (biens self ++
               [mkBien nom prix emprunt duree taux loyer charges m (Some df)])
            (hypA self) (hypB self)
  | _, _ => self
  end.

(** ** Projection *)

(** A loop whose body may raise: the first exception ends it. *)
Fixpoint for_each {S A : Type} (body : S -> A -> option S) (xs : list A)
    (s : S) : option S :=
  match xs with
  | [] => Some s
  | x :: xs' => s' ← body s x; for_each body xs' s'
  end.

(** [df.groupby("year")["interest"].sum().to_dict()]: the interest of the
    rows of each year, added in row order. *)
Definition interets_par_an_of (df : list Row) : gmap Z Q :=
  fold_left
    (fun acc row => <[year row := default 0 (acc !! year row) + interest row]> acc)
    df ∅.

(** [d[k].append(x)]; a missing key raises [KeyError]. *)
Definition dict_append (d : gmap string (list Q)) (k : string) (x : Q)
  : option (gmap string (list Q)) :=
  l ← d !! k; Some (<[k := l ++ [x]]> d).

(** The six indexed lines of year [year], each with its own rate:
    [(loy, ass, copro, taxe, assu_empr, autres)]. *)
Definition indexations (hyp : HypScenario) (b : Bien) (year : Z)
  : Q * Q * Q * Q * Q * Q :=
  let loy_base := loyer b in
  let ass_base := default 0 (charges b !! "assurance") in
  let copro_base := default 0 (charges b !! "copro") in
  let taxe_base := default 0 (charges b !! "taxe_fonciere") in
  let assu_empr_base := default 0 (charges b !! "assurance_emprunteur") in
  let autres_base := default 0 (charges b !! "autres") in
  let loy := loy_base * (1 + revalo_loyers hyp) ^ (year - 1) in
  let ass := ass_base * (1 + idx_assurance hyp) ^ (year - 1) in
  let copro := copro_base * (1 + idx_copro hyp) ^ (year - 1) in
  let taxe := taxe_base * (1 + idx_taxe hyp) ^ (year - 1) in
  let assu_empr := assu_empr_base * (1 + idx_assu_empr hyp) ^ (year - 1) in
  let autres := autres_base * (1 + idx_autres hyp) ^ (year - 1) in
  (loy, ass, copro, taxe, assu_empr, autres).

(** The values computed for property [b] in year [year]:
    [(revenu_imposable, cashflow)]. *)
Definition year_values (hyp : HypScenario) (b : Bien)
    (interets_par_an : gmap Z Q) (mensualite_annuelle : Q) (year : Z) : Q * Q :=
  let '(loy, ass, copro, taxe, assu_empr, autres) := indexations hyp b year in
  let charges_tot := ass + copro + assu_empr + autres in
  let annuite := if (year <=? duree b)%Z then mensualite_annuelle else 0 in
  let interets :=
    if (year <=? duree b)%Z then default 0 (interets_par_an !! year) else 0 in
  let revenu_imposable := loy - charges_tot - taxe - interets in
  let cashflow := loy - charges_tot - taxe - annuite in
  (revenu_imposable, cashflow).

(** The two result dictionaries, [(resultats_cashflow, resultats_imposable)]. *)
Abbreviation Resultats := (gmap string (list Q) * gmap string (list Q))%type.

(** The body of [for year in annees]. *)
Definition year_body (hyp : HypScenario) (b : Bien)
    (interets_par_an : gmap Z Q) (mensualite_annuelle : Q)
    (st : Resultats) (year : Z) : option Resultats :=
  let '(resultats_cashflow, resultats_imposable) := st in
  let '(revenu_imposable, cashflow) :=
    year_values hyp b interets_par_an mensualite_annuelle year in
  resultats_imposable ← dict_append resultats_imposable (nom b) revenu_imposable;
  resultats_cashflow ← dict_append resultats_cashflow (nom b) cashflow;
  Some (resultats_cashflow, resultats_imposable).

(** The body of [for b in self.biens]. *)
Definition bien_body (hyp : HypScenario) (annees : list Z)
    (st : Resultats) (b : Bien) : option Resultats :=
  let interets_par_an :=
    match amort b with
    | Some df_am => interets_par_an_of df_am
    | None => ∅
    end in
  let mensualite_annuelle := mensualite b * 12 in
  for_each (year_body hyp b interets_par_an mensualite_annuelle) annees st.

(** [[resultats[b["nom"]][i] for b in biens]]: a missing key or a short
    list raises. *)
Definition column (resultats : gmap string (list Q)) (biens : list Bien)
    (i : nat) : option (list Q) :=
  mapM (fun b => l ← resultats !! nom b; l !! i) biens.

(** The body of [for i,_ in enumerate(annees)]; the state is
    [(total_cashflow, total_imposable)]. *)
Definition total_body (biens : list Bien) (res : Resultats)
    (st : list Q * list Q) (i : nat) : option (list Q * list Q) :=
  let '(total_cashflow, total_imposable) := st in
  cfs ← column res.1 biens i;
  let total_cashflow := <[i := Py.sum cfs]> total_cashflow in
  imps ← column res.2 biens i;
  let total_imposable := <[i := Py.sum imps]> total_imposable in
  Some (total_cashflow, total_imposable).

(** [{b["nom"]: [] for b in biens}]. *)
Definition empty_series (biens : list Bien) : gmap string (list Q) :=
  fold_left (fun d b => <[nom b := []]> d) biens ∅.

(** The dictionary returned by [_project_with_scenario]. *)
Record Projection := mkProjection {
  res_annees : list Z;
  res_resultats_cashflow : gmap string (list Q);
  res_resultats_imposable : gmap string (list Q);
  res_total_cashflow : list Q;
  res_total_imposable : list Q;
  res_impots : list Q;
  res_ps : list Q;
  res_cf_after_tax : list Q
}.

Definition _project_with_scenario (self : ImmoApp) (hyp : HypScenario)
  : option Projection :=
  let annees := seqZ 1 (duree_projection hyp) in
  let resultats_cashflow := empty_series (biens self) in
  let resultats_imposable := empty_series (biens self) in
  let total_cashflow := replicate (length annees) 0 in
  let total_imposable := replicate (length annees) 0 in
  res ← for_each (bien_body hyp annees) (biens self)
          (resultats_cashflow, resultats_imposable);
  totals ← for_each (total_body (biens self) res)
             (seq 0 (length annees)) (total_cashflow, total_imposable);
  let '(total_cashflow, total_imposable) := totals in
  impots ← mapM (fun i => t ← total_imposable !! i; Some (Py.max t 0 * tmi hyp))
             (seq 0 (length annees));
  ps_ ← mapM (fun i => t ← total_imposable !! i; Some (Py.max t 0 * ps hyp))
          (seq 0 (length annees));
  let cf_after_tax :=
    zip_with Qminus (zip_with Qminus total_cashflow impots) ps_ in
  Some (mkProjection annees res.1 res.2 total_cashflow total_imposable
          impots ps_ cf_after_tax).

(** * Specification-level definitions *)

(** The balance after [k] months, by the recurrence of the loop. *)
Fixpoint balance_after (capital r m : Q) (k : nat) : Q :=
  match k with
  | O => capital
  | S k' =>
      let b := balance_after capital r m k' in
      Py.max 0 (b - Py.max (m - b * r) 0)
  end.

(** The row of month [k+1], from the balance after [k] months. *)
Definition row_at (capital r m : Q) (k : nat) : Row :=
  let i := (Z.of_nat k + 1)%Z in
  let b := balance_after capital r m k in
  mkRow i ((i - 1) / 12 + 1)%Z ((i - 1) mod 12 + 1)%Z m (b * r)
        (Py.max (m - b * r) 0) (balance_after capital r m (S k)).

(** The balance before the row of index [k]: the loan for the first row,
    the previous row's balance afterwards. *)
Definition balance_before (capital : Q) (rows : list Row) (k : nat) : Q :=
  match k with
  | O => capital
  | S k' => default 0 (balance <$> rows !! k')
  end.

(** A sum of rationals, from the right. *)
Definition Qsum (xs : list Q) : Q := foldr Qplus 0 xs.

(** ** Specification-level definitions for the projection *)

(** The interest-per-year dictionary of a property, as [bien_body]
    builds it. *)
Definition interets_of (b : Bien) : gmap Z Q :=
  match amort b with
  | Some df_am => interets_par_an_of df_am
  | None => ∅
  end.

(** The two values the loop computes for property [b] in year [year]. *)
Definition bien_imposable (hyp : HypScenario) (b : Bien) (year : Z) : Q :=
  (year_values hyp b (interets_of b) (mensualite b * 12) year).1.

Definition bien_cashflow (hyp : HypScenario) (b : Bien) (year : Z) : Q :=
  (year_values hyp b (interets_of b) (mensualite b * 12) year).2.

(** The projected years and their number. *)
Definition annees_of (hyp : HypScenario) : list Z :=
  seqZ 1 (duree_projection hyp).

Definition horizon (hyp : HypScenario) : nat :=
  Z.to_nat (duree_projection hyp).

(** The properties of a list that bear the name [k], in list order. *)
Definition homonymes (k : string) (bs : list Bien) : list Bien :=
  filter (fun b => nom b = k) bs.

(** The list found under the name [k] once every property has appended
    its series [f b]: the series of the properties named [k], one after
    the other. *)
Definition merged (f : Bien -> list Q) (bs : list Bien) (k : string)
  : list Q :=
  concat (f <$> homonymes k bs).

(** The first property of the list that bears the name of [b]. *)
Definition representant (bs : list Bien) (b : Bien) : Bien :=
  default b (head (homonymes (nom b) bs)).

(** What the aggregation reads at index [i]: for every property, the
    value of year [i+1] in the list found under its name, that is, the
    value [f] of the first property of that name. *)
Definition column_of (f : Bien -> Z -> Q) (bs : list Bien) (i : nat)
  : list Q :=
  (fun b => f (representant bs b) (1 + Z.of_nat i)%Z) <$> bs.

(** The totals, the taxes and the cash flow after tax, as functions of
    the properties. *)
Definition totals_of (f : Bien -> Z -> Q) (hyp : HypScenario)
    (bs : list Bien) : list Q :=
  (fun i => Py.sum (column_of f bs i)) <$> seq 0 (horizon hyp).

Definition taxes_of (rate : Q) (totals : list Q) : list Q :=
  (fun t => Py.max t 0 * rate) <$> totals.


(** The specification's formulas for one property and one year. *)
Module Spec.

Definition compounded (base idx : Q) (y : Z) : Q :=
  base * (1 + idx) ^ (y - 1).

Definition charge (b : Bien) (key : string) : Q :=
  default 0 (charges b !! key).

Definition rent (hyp : HypScenario) (b : Bien) (y : Z) : Q :=
  compounded (loyer b) (revalo_loyers hyp) y.

Definition charges_total (hyp : HypScenario) (b : Bien) (y : Z) : Q :=
  compounded (charge b "assurance") (idx_assurance hyp) y
  + compounded (charge b "copro") (idx_copro hyp) y
  + compounded (charge b "assurance_emprunteur") (idx_assu_empr hyp) y
  + compounded (charge b "autres") (idx_autres hyp) y.

Definition property_tax (hyp : HypScenario) (b : Bien) (y : Z) : Q :=
  compounded (charge b "taxe_fonciere") (idx_taxe hyp) y.

(** The interest of the amortisation rows whose year is [y]. *)
Definition interest_of_year (rows : list Row) (y : Z) : Q :=
  Qsum (interest <$> filter (fun row => year row = y) rows).

Definition annuity (b : Bien) (y : Z) : Q :=
  if (y <=? duree b)%Z then mensualite b * 12 else 0.

Definition interest (b : Bien) (y : Z) : Q :=
  if (y <=? duree b)%Z
  then interest_of_year (default [] (amort b)) y
  else 0.

Definition taxable_income (hyp : HypScenario) (b : Bien) (y : Z) : Q :=
  rent hyp b y - charges_total hyp b y - property_tax hyp b y
  - interest b y.

Definition cash_flow (hyp : HypScenario) (b : Bien) (y : Z) : Q :=
  rent hyp b y - charges_total hyp b y - property_tax hyp b y
  - annuity b y.

End Spec.

(** ** The application as state *)




(** ** Sample data *)

Definition charges_nulles : gmap string Q :=
  <["assurance" := 0]> (<["taxe_fonciere" := 0]> (<["copro" := 0]>
    (<["assurance_emprunteur" := 0]> (<["autres" := 0]> ∅)))).

Definition app_vide : ImmoApp :=
  mkApp [] (HypScenario_init "A") (HypScenario_init "B").

(** A scenario without indexation, over three years. *)
Definition hyp_plat : HypScenario :=
  mkHyp "A" 0 0 0 0 0 0 (30 # 100) (172 # 1000) 3.

(** Two properties entered under the same name, without a loan, with
    rents of 1200 and 600. *)
Definition app_homonymes : ImmoApp :=
  add_bien "A" 0 0 0 0 600 charges_nulles
    (add_bien "A" 0 0 0 0 1200 charges_nulles app_vide).

(** The same two properties under distinct names. *)
Definition app_deux_biens : ImmoApp :=
  add_bien "B" 0 0 0 0 600 charges_nulles
    (add_bien "A" 0 0 0 0 1200 charges_nulles app_vide).

(** One property without rent and with a property tax of 100. *)
Definition app_deficit : ImmoApp :=
  add_bien "D" 0 0 0 0 0 (<["taxe_fonciere" := 100]> charges_nulles) app_vide.

(** A property that has no rent. *)
Definition bien_sans_loyer : Bien :=
  mkBien "V" 0 0 0 0 0 charges_nulles 0 (Some []).

(** The two properties of [app_homonymes]. *)
Definition bien_A1 : Bien :=
  mkBien "A" 0 0 0 0 1200 charges_nulles 0 (Some []).

Definition bien_A2 : Bien :=
  mkBien "A" 0 0 0 0 600 charges_nulles 0 (Some []).

(** ** Further specification-level definitions *)

(** The property [b] with another dictionary of charges. *)
Definition with_charges (b : Bien) (c : gmap string Q) : Bien :=
  mkBien (nom b) (prix b) (emprunt b) (duree b) (taux b) (loyer b) c
         (mensualite b) (amort b).

(** The five keys of the charges that the projection reads. *)
Definition charge_keys : list string :=
  ["assurance"; "copro"; "taxe_fonciere"; "assurance_emprunteur"; "autres"].

(** The rows of a property's table, none when it has no table. *)
Definition rows_of (b : Bien) : list Row := default [] (amort b).

(** The rows of year [y] in a table: twelve rows from index [12*(y-1)]. *)
Definition rows_of_year_at (rows : list Row) (y : Z) : list Row :=
  take 12 (drop (12 * Z.to_nat (y - 1)) rows).

(** ** Editing a scenario *)

(** [int(x)] of a float: truncation toward zero. *)
Definition py_int (x : Q) : Z := Z.quot (Qnum x) (Z.pos (Qden x)).

(** The nine entries of the dialog after [float(...)]: [None] stands for
    a text that [float] rejects. *)
Record HypEntries := mkHypEntries {
  e_revalo_loyers : option Q;
  e_idx_assurance : option Q;
  e_idx_copro : option Q;
  e_idx_taxe : option Q;
  e_idx_assu_empr : option Q;
  e_idx_autres : option Q;
  e_tmi : option Q;
  e_ps : option Q;
  e_duree_projection : option Q
}.

(** The [save] closure of [edit_hypotheses]: the attributes of [hyp] are
    assigned one after the other, and the first text that [float]
    rejects ends the assignments (an error box is shown).  The result is
    the scenario after the call and whether every entry was saved. *)
Definition save_hypotheses (e : HypEntries) (hyp : HypScenario)
  : HypScenario * bool :=
  match e_revalo_loyers e with None => (hyp, false) | Some v =>
  let hyp := mkHyp (name hyp) (v / 100) (idx_assurance hyp) (idx_copro hyp)
               (idx_taxe hyp) (idx_assu_empr hyp) (idx_autres hyp) (tmi hyp)
               (ps hyp) (duree_projection hyp) in
  match e_idx_assurance e with None => (hyp, false) | Some v =>
  let hyp := mkHyp (name hyp) (revalo_loyers hyp) (v / 100) (idx_copro hyp)
               (idx_taxe hyp) (idx_assu_empr hyp) (idx_autres hyp) (tmi hyp)
               (ps hyp) (duree_projection hyp) in
  match e_idx_copro e with None => (hyp, false) | Some v =>
  let hyp := mkHyp (name hyp) (revalo_loyers hyp) (idx_assurance hyp)
               (v / 100) (idx_taxe hyp) (idx_assu_empr hyp) (idx_autres hyp)
               (tmi hyp) (ps hyp) (duree_projection hyp) in
  match e_idx_taxe e with None => (hyp, false) | Some v =>
  let hyp := mkHyp (name hyp) (revalo_loyers hyp) (idx_assurance hyp)
               (idx_copro hyp) (v / 100) (idx_assu_empr hyp) (idx_autres hyp)
               (tmi hyp) (ps hyp) (duree_projection hyp) in
  match e_idx_assu_empr e with None => (hyp, false) | Some v =>
  let hyp := mkHyp (name hyp) (revalo_loyers hyp) (idx_assurance hyp)
               (idx_copro hyp) (idx_taxe hyp) (v / 100) (idx_autres hyp)
               (tmi hyp) (ps hyp) (duree_projection hyp) in
  match e_idx_autres e with None => (hyp, false) | Some v =>
  let hyp := mkHyp (name hyp) (revalo_loyers hyp) (idx_assurance hyp)
               (idx_copro hyp) (idx_taxe hyp) (idx_assu_empr hyp) (v / 100)
               (tmi hyp) (ps hyp) (duree_projection hyp) in
  match e_tmi e with None => (hyp, false) | Some v =>
  let hyp := mkHyp (name hyp) (revalo_loyers hyp) (idx_assurance hyp)
               (idx_copro hyp) (idx_taxe hyp) (idx_assu_empr hyp)
               (idx_autres hyp) (v / 100) (ps hyp) (duree_projection hyp) in
  match e_ps e with None => (hyp, false) | Some v =>
  let hyp := mkHyp (name hyp) (revalo_loyers hyp) (idx_assurance hyp)
               (idx_copro hyp) (idx_taxe hyp) (idx_assu_empr hyp)
               (idx_autres hyp) (tmi hyp) (v / 100) (duree_projection hyp) in
  match e_duree_projection e with None => (hyp, false) | Some v =>
  let hyp := mkHyp (name hyp) (revalo_loyers hyp) (idx_assurance hyp)
               (idx_copro hyp) (idx_taxe hyp) (idx_assu_empr hyp)
               (idx_autres hyp) (tmi hyp) (ps hyp) (py_int v) in
  (hyp, true)
  end end end end end end end end end.

(** [edit_hypotheses(which)] followed by a click on the save button: the
    scenario edited is A when [which == "A"], B otherwise. *)
Definition edit_hypotheses (which : string) (e : HypEntries)
    (self : ImmoApp) : ImmoApp * bool :=
  if decide (which = "A") then
    let '(hyp, ok) := save_hypotheses e (hypA self) in
    (mkApp (biens self) hyp (hypB self), ok)
  else
    let '(hyp, ok) := save_hypotheses e (hypB self) in
    (mkApp (biens self) (hypA self) hyp, ok).

(** The nine numbers of a scenario, in the order of the dialog. *)
Definition hyp_values (hyp : HypScenario) : list Q :=
  [revalo_loyers hyp; idx_assurance hyp; idx_copro hyp; idx_taxe hyp;
   idx_assu_empr hyp; idx_autres hyp; tmi hyp; ps hyp;
   inject_Z (duree_projection hyp)].

(** What each entry is saved as: a percentage divided by 100, and the
    truncated number of years. *)
Definition entry_values (e : HypEntries) : list (option Q) :=
  [(fun v => v / 100) <$> e_revalo_loyers e;
   (fun v => v / 100) <$> e_idx_assurance e;
   (fun v => v / 100) <$> e_idx_copro e;
   (fun v => v / 100) <$> e_idx_taxe e;
   (fun v => v / 100) <$> e_idx_assu_empr e;
   (fun v => v / 100) <$> e_idx_autres e;
   (fun v => v / 100) <$> e_tmi e;
   (fun v => v / 100) <$> e_ps e;
   (fun v => inject_Z (py_int v)) <$> e_duree_projection e].

(** The values of the entries before the first one that is rejected. *)
Fixpoint accepted (es : list (option Q)) : list Q :=
  match es with
  | Some v :: es' => v :: accepted es'
  | _ => []
  end.

(** ** The amortisation view *)

(** The loop of [open_for]: the first property whose name is the one
    selected. *)
Fixpoint open_for (name : string) (biens : list Bien) : option Bien :=
  match biens with
  | [] => None
  | b :: biens' => if decide (nom b = name) then Some b else open_for name biens'
  end.





(** ** The summary table *)








(** * Proofs *)

(** Closed comparisons of concrete numbers, by evaluation. *)
Ltac by_eval :=
  vm_compute;
  first [ reflexivity
        | let H := fresh in intros H; discriminate H
        | lia
        | exact I ].

(** * The amortisation helpers *)

Section Arith.

Lemma Py_max_Qmax a b : Py.max a b == Qmax a b.
Proof.
  unfold Py.max. destruct (Qlt_le_dec a b) as [H | H].
  - symmetry. apply Q.max_r. lra.
  - symmetry. apply Q.max_l. exact H.
Qed.

Lemma Py_max_l a b : b <= a -> Py.max a b = a.
Proof.
  intros H. unfold Py.max. destruct (Qlt_le_dec a b); [lra | reflexivity].
Qed.

Lemma Py_max_r a b : a < b -> Py.max a b = b.
Proof.
  intros H. unfold Py.max. destruct (Qlt_le_dec a b); [reflexivity | lra].
Qed.

Lemma Py_max_ge_l a b : a <= Py.max a b.
Proof. unfold Py.max. destruct (Qlt_le_dec a b); lra. Qed.

Lemma Py_max_ge_r a b : b <= Py.max a b.
Proof. unfold Py.max. destruct (Qlt_le_dec a b); lra. Qed.

Lemma Py_sum_from xs a : fold_left Qplus xs a == a + Qsum xs.
Proof.
  revert a. induction xs as [| x xs IH]; intros a; simpl.
  - unfold Qsum. simpl. lra.
  - rewrite IH. unfold Qsum. simpl. lra.
Qed.

Lemma Py_sum_Qsum xs : Py.sum xs == Qsum xs.
Proof. unfold Py.sum. rewrite Py_sum_from. lra. Qed.

Lemma Qsum_app xs ys : Qsum (xs ++ ys) == Qsum xs + Qsum ys.
Proof.
  induction xs as [| x xs IH]; unfold Qsum in *; simpl; [lra |].
  rewrite IH. lra.
Qed.

Lemma Py_div_Some a b : ~ b == 0 -> Py.div a b = Some (a / b).
Proof.
  intros H. unfold Py.div. destruct (Qeq_bool b 0) eqn:E; [| reflexivity].
  apply Qeq_bool_iff in E. contradiction.
Qed.

Lemma Py_pow_Some x k : ~ x == 0 -> Py.pow x k = Some (x ^ k).
Proof.
  intros H. unfold Py.pow. destruct (Qeq_bool x 0) eqn:E; [| reflexivity].
  apply Qeq_bool_iff in E. contradiction.
Qed.

Lemma Py_pow_nonneg x k : (0 <= k)%Z -> Py.pow x k = Some (x ^ k).
Proof.
  intros H. unfold Py.pow.
  replace (k <? 0)%Z with false by (symmetry; apply Z.ltb_ge; exact H).
  rewrite andb_false_r. reflexivity.
Qed.

End Arith.

Section Amortissement.

Variables (capital taux_annuel : Q) (duree_annees : Z).

Let n : Z := (duree_annees * 12)%Z.
Let r : Q := taux_annuel / 12.


Lemma mensualite_lineaire :
  (0 < n)%Z -> Qabs r < epsilon ->
  mensualite_credit capital taux_annuel duree_annees
  = Some (capital / inject_Z n).
Proof.
  intros Hn Hr. unfold mensualite_credit. fold n. fold r.
  replace (n <=? 0)%Z with false by (symmetry; apply Z.leb_gt; exact Hn).
  destruct (Qlt_le_dec (Qabs r) epsilon); [reflexivity | lra].
Qed.

Lemma mensualite_annuite :
  (0 < n)%Z -> epsilon <= Qabs r ->
  ~ 1 + r == 0 -> ~ 1 - (1 + r) ^ (- n) == 0 ->
  mensualite_credit capital taux_annuel duree_annees
  = Some (capital * (r / (1 - (1 + r) ^ (- n)))).
Proof.
  intros Hn Hr Hb Hd. unfold mensualite_credit. fold n. fold r.
  replace (n <=? 0)%Z with false by (symmetry; apply Z.leb_gt; exact Hn).
  destruct (Qlt_le_dec (Qabs r) epsilon); [lra |].
  rewrite Py_pow_Some by exact Hb. simpl.
  rewrite Py_div_Some by exact Hd. reflexivity.
Qed.

Lemma amort_loop (m : Q) (k : nat) :
  fold_left (amort_step r m) (seqZ 1 (Z.of_nat k)) (capital, [])
  = (balance_after capital r m k, row_at capital r m <$> seq 0 k).
Proof.
  induction k as [| k IH].
  - reflexivity.
  - rewrite seqZ_S, fold_left_app, IH. simpl fold_left.
    rewrite seq_S, fmap_app. simpl. unfold row_at.
    replace (1 + Z.of_nat k)%Z with (Z.of_nat k + 1)%Z by lia.
    reflexivity.
Qed.

Lemma tableau_rows (m : Q) :
  (0 < n)%Z ->
  mensualite_credit capital taux_annuel duree_annees = Some m ->
  tableau_amortissement capital taux_annuel duree_annees
  = Some (row_at capital r m <$> seq 0 (Z.to_nat n)).
Proof.
  intros Hn Hm. unfold tableau_amortissement. fold n. fold r.
  replace (n <=? 0)%Z with false by (symmetry; apply Z.leb_gt; exact Hn).
  rewrite Hm. simpl.
  rewrite <- (Z2Nat.id n) at 1 by lia.
  rewrite amort_loop. reflexivity.
Qed.

End Amortissement.

(** ** Constant annuities at a positive rate: the closed form *)

Section Annuite.

Variables (capital r : Q) (n : Z).
Hypothesis capital_pos : 0 < capital.
Hypothesis r_pos : 0 < r.
Hypothesis n_pos : (0 < n)%Z.

Let m : Q := capital * (r / (1 - (1 + r) ^ (- n))).
Let Qn : Q := (1 + r) ^ n.

Lemma Qn_gt_1 : 1 < Qn.
Proof. apply Qpower_1_lt; [lra | exact n_pos]. Qed.

Lemma annuite_defined : ~ 1 + r == 0 /\ ~ 1 - (1 + r) ^ (- n) == 0.
Proof.
  split; [lra |]. rewrite Qpower_opp. fold Qn.
  pose proof Qn_gt_1 as H.
  assert (/ Qn < 1).
  { apply Qlt_shift_inv_r; lra. }
  lra.
Qed.

Lemma annuite_eq : m == capital * r * Qn / (Qn - 1).
Proof.
  unfold m. rewrite Qpower_opp. fold Qn.
  pose proof Qn_gt_1 as H. field. split; lra.
Qed.

Lemma pow_succ (k : nat) :
  (1 + r) ^ Z.of_nat (S k) == (1 + r) * (1 + r) ^ Z.of_nat k.
Proof.
  rewrite Nat2Z.inj_succ. unfold Z.succ.
  rewrite Qpower_plus by lra. simpl ((1 + r) ^ 1). ring.
Qed.

Lemma pow_bounds (k : nat) :
  (Z.of_nat k <= n)%Z -> 1 <= (1 + r) ^ Z.of_nat k <= Qn.
Proof.
  intros Hk. split.
  - apply Qpower_1_le; [lra | lia].
  - apply Qpower_le_compat_l; [exact Hk | lra].
Qed.

(** One month, from a balance on the closed form: the payment covers
    the interest, and the balance left is non-negative and again on the
    closed form. *)
Lemma month_closed (k : nat) (b : Q) :
  (Z.of_nat (S k) <= n)%Z ->
  b == capital * (Qn - (1 + r) ^ Z.of_nat k) / (Qn - 1) ->
  0 <= m - b * r /\
  0 <= b - (m - b * r) /\
  b - (m - b * r)
  == capital * (Qn - (1 + r) ^ Z.of_nat (S k)) / (Qn - 1).
Proof.
  intros Hk Hb.
  pose proof Qn_gt_1 as HQ.
  destruct (pow_bounds k ltac:(lia)) as [Hx1 Hx2].
  destruct (pow_bounds (S k) Hk) as [_ Hy2].
  rewrite pow_succ in Hy2 |- *.
  set (X := (1 + r) ^ Z.of_nat k) in *.
  assert (Hi : 0 < / (Qn - 1)) by (apply Qinv_lt_0_compat; lra).
  assert (Hn : m - b * r == capital * r * X * / (Qn - 1)).
  { rewrite Hb, annuite_eq. field. lra. }
  assert (Hs : b - (m - b * r)
               == capital * (Qn - (1 + r) * X) * / (Qn - 1)).
  { rewrite Hb, annuite_eq. field. lra. }
  split; [| split].
  - rewrite Hn. apply Qmult_le_0_compat; [| lra].
    apply Qmult_le_0_compat; [| lra].
    apply Qmult_le_0_compat; lra.
  - rewrite Hs. apply Qmult_le_0_compat; [| lra].
    apply Qmult_le_0_compat; lra.
  - rewrite Hs. reflexivity.
Qed.

Lemma Py_max_0_nonneg (x : Q) : 0 <= x -> Py.max 0 x == x.
Proof.
  intros H. unfold Py.max. destruct (Qlt_le_dec 0 x); lra.
Qed.

(** The balance after [k] months is
    [capital * ((1+r)^n - (1+r)^k) / ((1+r)^n - 1)]. *)
Lemma balance_closed (k : nat) :
  (Z.of_nat k <= n)%Z ->
  balance_after capital r m k
  == capital * (Qn - (1 + r) ^ Z.of_nat k) / (Qn - 1).
Proof.
  pose proof Qn_gt_1 as HQ.
  induction k as [| k IH]; intros Hk.
  - simpl. field. lra.
  - specialize (IH ltac:(lia)).
    destruct (month_closed k _ Hk IH) as (Hp & H0 & Hs).
    simpl balance_after.
    rewrite (Py_max_l _ _ Hp), (Py_max_0_nonneg _ H0). exact Hs.
Qed.


(** The payment covers the interest of every month. *)
Lemma interest_le_payment (k : nat) :
  (Z.of_nat (S k) <= n)%Z -> 0 <= m - balance_after capital r m k * r.
Proof.
  intros Hk.
  apply (month_closed k _ Hk (balance_closed k ltac:(lia))).
Qed.





End Annuite.

(** ** Straight-line payments at a positive rate: a residual balance *)

Section Lineaire.

Variables (capital r : Q) (n : Z).
Hypothesis capital_pos : 0 < capital.
Hypothesis r_pos : 0 < r.
Hypothesis n_pos : (0 < n)%Z.

Let m : Q := capital / inject_Z n.





End Lineaire.

(** ** The statements about the amortisation helpers *)

Lemma epsilon_pos : 0 < epsilon.
Proof. reflexivity. Qed.

Lemma lookup_rows (capital r m : Q) (N k : nat) (row : Row) :
  (row_at capital r m <$> seq 0 N) !! k = Some row ->
  (k < N)%nat /\ row = row_at capital r m k.
Proof.
  intros H. rewrite list_lookup_fmap in H.
  destruct (seq 0 N !! k) as [j |] eqn:E; [| discriminate].
  apply lookup_seq in E as [-> Hk]. simpl in H. split; [exact Hk | congruence].
Qed.

Lemma balance_before_rows (capital r m : Q) (N k : nat) :
  (k < N)%nat ->
  balance_before capital (row_at capital r m <$> seq 0 N) k
  = balance_after capital r m k.
Proof.
  intros Hk. destruct k as [| k]; [reflexivity |].
  unfold balance_before. rewrite list_lookup_fmap.
  rewrite lookup_seq_lt by lia. reflexivity.
Qed.



(** At a positive monthly rate the annuity formula is defined, so a
    payment is returned. *)
Lemma mensualite_taux_positif (capital taux_annuel : Q) (duree_annees : Z) :
  (0 < duree_annees)%Z -> epsilon <= taux_annuel / 12 ->
  mensualite_credit capital taux_annuel duree_annees
  = Some (capital * (taux_annuel / 12
                     / (1 - (1 + taux_annuel / 12) ^ (- (duree_annees * 12))))).
Proof.
  intros Hd Hr. pose proof epsilon_pos as He.
  destruct (annuite_defined (taux_annuel / 12) (duree_annees * 12)
              ltac:(lra) ltac:(lia)) as [H1 H2].
  apply mensualite_annuite; try assumption; [lia |].
  rewrite Qabs_pos; lra.
Qed.

(** The monthly rates at which the formula is undefined raise
    [ZeroDivisionError]. *)
Example mensualite_raises :
  mensualite_credit 1200 (-12) 1 = None /\
  mensualite_credit 1200 (-24) 1 = None.
Proof. split; reflexivity. Qed.

(** C2. [tableau_amortissement] returns no row when
    [n = duree_annees*12 <= 0]; otherwise, with [m] the payment returned by
    [mensualite_credit], it returns exactly [n] rows, and the row of month
    [i = 1..n] has, with [b] the balance before it (the loan for month 1,
    the balance of the previous row afterwards): interest [b*r], principal
    [max(m - b*r, 0)], balance [max(0, b - principal)], year
    [(i-1)//12 + 1] and month [(i-1)%12 + 1]. *)
Theorem tableau_amortissement_spec
    (capital taux_annuel : Q) (duree_annees : Z) :
  let n := (duree_annees * 12)%Z in
  let r := taux_annuel / 12 in
  ((n <= 0)%Z ->
     tableau_amortissement capital taux_annuel duree_annees = Some []) /\
  (forall m, (0 < n)%Z ->
     mensualite_credit capital taux_annuel duree_annees = Some m ->
     exists rows,
       tableau_amortissement capital taux_annuel duree_annees = Some rows /\
       length rows = Z.to_nat n /\
       forall k, (k < Z.to_nat n)%nat ->
         exists row, rows !! k = Some row /\
           let i := (Z.of_nat k + 1)%Z in
           let b := balance_before capital rows k in
           month_index row = i /\
           year row = ((i - 1) / 12 + 1)%Z /\
           month row = ((i - 1) mod 12 + 1)%Z /\
           payment row = m /\
           interest row = b * r /\
           principal row = Py.max (m - interest row) 0 /\
           balance row = Py.max 0 (b - principal row)).
Proof.
  intros n r. split.
  - intros Hn. unfold tableau_amortissement. fold n.
    replace (n <=? 0)%Z with true by (symmetry; apply Z.leb_le; exact Hn).
    reflexivity.
  - intros m Hn Hm. eexists. split; [apply tableau_rows; eassumption |].
    fold n r. split.
    + rewrite length_fmap, length_seq. reflexivity.
    + intros k Hk. exists (row_at capital r m k). split.
      * rewrite list_lookup_fmap, lookup_seq_lt by exact Hk. reflexivity.
      * cbv zeta. rewrite balance_before_rows by exact Hk.
        repeat split; reflexivity.
Qed.

Lemma tableau_amortissement_spec_witness :
  tableau_amortissement 1200 0 0 = Some [] /\
  exists rows,
    tableau_amortissement 1200 0 1 = Some rows /\ length rows = 12%nat.
Proof.
  split.
  - apply (proj1 (tableau_amortissement_spec 1200 0 0)). by_eval.
  - destruct (tableau_amortissement_spec 1200 0 1) as [_ H].
    destruct (H (1200 / inject_Z 12)) as (rows & Hr & Hl & _);
      [reflexivity | reflexivity |].
    exists rows. split; [exact Hr | exact Hl].
Defined.

(** C8. At a zero annual rate and a positive duration,
    [mensualite_credit] returns exactly [capital / (duree_annees*12)], and
    every row of the table has a zero interest. *)
Theorem taux_zero (capital taux_annuel : Q) (duree_annees : Z) :
  taux_annuel == 0 -> (0 < duree_annees)%Z ->
  mensualite_credit capital taux_annuel duree_annees
  = Some (capital / inject_Z (duree_annees * 12)) /\
  exists rows,
    tableau_amortissement capital taux_annuel duree_annees = Some rows /\
    length rows = Z.to_nat (duree_annees * 12) /\
    forall row, row ∈ rows -> interest row == 0.
Proof.
  intros Ht Hd.
  assert (Hm : mensualite_credit capital taux_annuel duree_annees
               = Some (capital / inject_Z (duree_annees * 12))).
  { apply mensualite_lineaire; [lia |].
    assert (H0 : taux_annuel / 12 == 0) by (rewrite Ht; reflexivity).
    apply Qabs_Qlt_condition. rewrite H0. split; reflexivity. }
  split; [exact Hm |].
  eexists. split; [apply tableau_rows; [lia | exact Hm] |].
  split.
  - rewrite length_fmap, length_seq. reflexivity.
  - intros row Hin. apply list_elem_of_lookup in Hin as [k Hk].
    apply lookup_rows in Hk as [_ ->].
    unfold row_at. cbn [interest].
    generalize (balance_after capital (taux_annuel / 12)
                  (capital / inject_Z (duree_annees * 12)) k).
    intros b. rewrite Ht. unfold Qdiv. ring.
Qed.

Lemma taux_zero_witness :
  mensualite_credit 100000 0 20 = Some (100000 / inject_Z (20 * 12)) /\
  exists rows,
    tableau_amortissement 100000 0 20 = Some rows /\
    length rows = Z.to_nat (20 * 12) /\
    forall row, row ∈ rows -> interest row == 0.
Proof. apply (taux_zero 100000 0 20); by_eval. Defined.




(** * The projection *)

Section Loops.

Context {S A : Type}.

Lemma for_each_app (body : S -> A -> option S) (xs ys : list A) (s : S) :
  for_each body (xs ++ ys) s
  = for_each body xs s ≫= for_each body ys.
Proof.
  revert s. induction xs as [| x xs IH]; intros s; simpl.
  - reflexivity.
  - destruct (body s x) as [s' |]; simpl; [apply IH | reflexivity].
Qed.

End Loops.

(** Reading every index of a list in turn. *)
Lemma mapM_lookup_from (g : Q -> Q) (l0 l : list Q) :
  mapM (fun i => t ← (l0 ++ l) !! i; Some (g t)) (seq (length l0) (length l))
  = Some (g <$> l).
Proof.
  revert l0. induction l as [| x l IH]; intros l0; [reflexivity |].
  cbn [length seq]. cbn [mapM].
  rewrite list_lookup_middle by reflexivity. cbn [mbind option_bind].
  specialize (IH (l0 ++ [x])).
  rewrite <- app_assoc, length_app in IH. cbn [length app] in IH.
  replace (length l0 + 1)%nat with (Datatypes.S (length l0)) in IH by lia.
  rewrite IH. reflexivity.
Qed.

Lemma mapM_lookup_all (g : Q -> Q) (l : list Q) :
  mapM (fun i => t ← l !! i; Some (g t)) (seq 0 (length l)) = Some (g <$> l).
Proof. apply (mapM_lookup_from g [] l). Qed.

(** The dictionary of empty series has exactly the names of the
    properties. *)
Lemma empty_series_from (bs : list Bien) (d : gmap string (list Q))
    (k : string) :
  fold_left (fun d b => <[nom b := []]> d) bs d !! k
  = if decide (k ∈ nom <$> bs) then Some [] else d !! k.
Proof.
  revert d. induction bs as [| b bs IH]; intros d; cbn [fold_left].
  - destruct (decide (k ∈ nom <$> [])) as [H |]; [| reflexivity].
    by apply elem_of_nil in H.
  - rewrite IH, fmap_cons.
    destruct (decide (k ∈ nom <$> bs)) as [H1 | H1];
      destruct (decide (k ∈ nom b :: (nom <$> bs))) as [H2 | H2];
      try reflexivity.
    + exfalso. apply H2. by right.
    + apply elem_of_cons in H2 as [-> | H2]; [| contradiction].
      apply lookup_insert_eq.
    + rewrite lookup_insert_ne; [reflexivity |].
      intros <-. apply H2. by left.
Qed.

Lemma empty_series_lookup (bs : list Bien) (k : string) :
  empty_series bs !! k = if decide (k ∈ nom <$> bs) then Some [] else None.
Proof. unfold empty_series. rewrite empty_series_from. reflexivity. Qed.

Section Projection.

Variable hyp : HypScenario.

Lemma year_body_eq (b : Bien) (ipa : gmap Z Q) (ma : Q) (y : Z)
    (rc ri : gmap string (list Q)) (l1 l2 : list Q) :
  rc !! nom b = Some l1 -> ri !! nom b = Some l2 ->
  year_body hyp b ipa ma (rc, ri) y
  = Some (<[nom b := l1 ++ [(year_values hyp b ipa ma y).2]]> rc,
          <[nom b := l2 ++ [(year_values hyp b ipa ma y).1]]> ri).
Proof.
  intros H1 H2. unfold year_body.
  destruct (year_values hyp b ipa ma y) as [v1 v2].
  unfold dict_append. rewrite H1, H2. reflexivity.
Qed.

(** The inner loop appends the year values of [b] under its name. *)
Lemma year_loop (b : Bien) (ipa : gmap Z Q) (ma : Q) (ys : list Z) :
  forall (rc ri : gmap string (list Q)) (l1 l2 : list Q),
    rc !! nom b = Some l1 -> ri !! nom b = Some l2 ->
    for_each (year_body hyp b ipa ma) ys (rc, ri)
    = Some (<[nom b := l1 ++ ((fun y => (year_values hyp b ipa ma y).2) <$> ys)]> rc,
            <[nom b := l2 ++ ((fun y => (year_values hyp b ipa ma y).1) <$> ys)]> ri).
Proof.
  induction ys as [| y ys IH]; intros rc ri l1 l2 H1 H2.
  - simpl. rewrite !app_nil_r, !insert_id by assumption. reflexivity.
  - cbn [for_each]. rewrite (year_body_eq b ipa ma y rc ri l1 l2 H1 H2).
    cbn [mbind option_bind].
    rewrite (IH _ _ _ _ (lookup_insert_eq _ _ _) (lookup_insert_eq _ _ _)).
    rewrite !insert_insert_eq, <- !app_assoc. reflexivity.
Qed.

Let cfs (b : Bien) : list Q := bien_cashflow hyp b <$> annees_of hyp.
Let imps (b : Bien) : list Q := bien_imposable hyp b <$> annees_of hyp.

Lemma bien_body_eq (b : Bien) (rc ri : gmap string (list Q))
    (l1 l2 : list Q) :
  rc !! nom b = Some l1 -> ri !! nom b = Some l2 ->
  bien_body hyp (annees_of hyp) (rc, ri) b
  = Some (<[nom b := l1 ++ cfs b]> rc, <[nom b := l2 ++ imps b]> ri).
Proof.
  intros H1 H2. unfold bien_body.
  exact (year_loop b _ _ _ rc ri l1 l2 H1 H2).
Qed.

Lemma merged_cons (f : Bien -> list Q) (b : Bien) (bs : list Bien)
    (k : string) :
  merged f (b :: bs) k
  = if decide (nom b = k) then f b ++ merged f bs k else merged f bs k.
Proof.
  unfold merged, homonymes. rewrite filter_cons.
  case_decide; reflexivity.
Qed.

(** The outer loop: under every name, the series of the properties of
    that name are appended in list order. *)
Lemma biens_loop (bs : list Bien) :
  forall rc ri : gmap string (list Q),
    (forall b, b ∈ bs -> is_Some (rc !! nom b)) ->
    (forall b, b ∈ bs -> is_Some (ri !! nom b)) ->
    exists rc' ri',
      for_each (bien_body hyp (annees_of hyp)) bs (rc, ri) = Some (rc', ri') /\
      (forall k, rc' !! k = (fun l => l ++ merged cfs bs k) <$> rc !! k) /\
      (forall k, ri' !! k = (fun l => l ++ merged imps bs k) <$> ri !! k).
Proof.
  induction bs as [| b bs IH]; intros rc ri Hc Hi.
  - exists rc, ri. split; [reflexivity |].
    split; intros k; unfold merged; simpl;
      destruct (_ !! k); simpl; rewrite ?app_nil_r; reflexivity.
  - destruct (Hc b ltac:(by left)) as [l1 H1].
    destruct (Hi b ltac:(by left)) as [l2 H2].
    cbn [for_each]. rewrite (bien_body_eq b rc ri l1 l2 H1 H2).
    cbn [mbind option_bind].
    edestruct (IH (<[nom b := l1 ++ cfs b]> rc)
                  (<[nom b := l2 ++ imps b]> ri))
      as (rc' & ri' & Hrun & Hrc & Hri).
    { intros b' Hb'. destruct (decide (nom b = nom b')) as [-> | Hne].
      - rewrite lookup_insert_eq. eauto.
      - rewrite lookup_insert_ne by exact Hne. apply Hc. by right. }
    { intros b' Hb'. destruct (decide (nom b = nom b')) as [-> | Hne].
      - rewrite lookup_insert_eq. eauto.
      - rewrite lookup_insert_ne by exact Hne. apply Hi. by right. }
    exists rc', ri'. split; [exact Hrun |].
    split; intros k; rewrite ?Hrc, ?Hri, merged_cons.
    + destruct (decide (nom b = k)) as [<- | Hne].
      * rewrite lookup_insert_eq, H1. simpl. by rewrite <- app_assoc.
      * by rewrite lookup_insert_ne.
    + destruct (decide (nom b = k)) as [<- | Hne].
      * rewrite lookup_insert_eq, H2. simpl. by rewrite <- app_assoc.
      * by rewrite lookup_insert_ne.
Qed.


Lemma length_annees : length (annees_of hyp) = horizon hyp.
Proof. apply length_seqZ. Qed.

Lemma lookup_annees (i : nat) :
  (i < horizon hyp)%nat ->
  annees_of hyp !! i = Some (1 + Z.of_nat i)%Z.
Proof. intros H. apply lookup_seqZ_lt. unfold horizon in H. lia. Qed.

(** The dictionaries after the outer loop. *)
Lemma resultats_final (bs : list Bien) :
  exists rc ri,
    for_each (bien_body hyp (annees_of hyp)) bs
      (empty_series bs, empty_series bs) = Some (rc, ri) /\
    (forall k, rc !! k = if decide (k ∈ nom <$> bs)
                         then Some (merged cfs bs k) else None) /\
    (forall k, ri !! k = if decide (k ∈ nom <$> bs)
                         then Some (merged imps bs k) else None).
Proof.
  assert (Hdom : forall b, b ∈ bs -> is_Some (empty_series bs !! nom b)).
  { intros b Hb. rewrite empty_series_lookup.
    rewrite decide_True by (by apply list_elem_of_fmap_2). eauto. }
  destruct (biens_loop bs _ _ Hdom Hdom) as (rc & ri & Hrun & Hrc & Hri).
  exists rc, ri. split; [exact Hrun |].
  split; intros k; rewrite ?Hrc, ?Hri, empty_series_lookup;
    destruct (decide (k ∈ nom <$> bs)); reflexivity.
Qed.

Lemma representant_head (bs : list Bien) (b : Bien) :
  b ∈ bs ->
  exists rest, homonymes (nom b) bs = representant bs b :: rest.
Proof.
  intros Hb. unfold representant.
  assert (Hin : b ∈ homonymes (nom b) bs)
    by (apply list_elem_of_filter; split; [reflexivity | exact Hb]).
  destruct (homonymes (nom b) bs) as [| b0 rest].
  - by apply elem_of_nil in Hin.
  - exists rest. reflexivity.
Qed.

(** Index [i] of the list under the name of [b] is the value of the
    first property of that name. *)
Lemma merged_lookup (f : Bien -> Z -> Q) (bs : list Bien) (b : Bien)
    (i : nat) :
  b ∈ bs -> (i < horizon hyp)%nat ->
  merged (fun b => f b <$> annees_of hyp) bs (nom b) !! i
  = Some (f (representant bs b) (1 + Z.of_nat i)%Z).
Proof.
  intros Hb Hi. destruct (representant_head bs b Hb) as [rest Hh].
  unfold merged. rewrite Hh. cbn [fmap list_fmap concat].
  rewrite lookup_app_l by (rewrite length_fmap, length_annees; exact Hi).
  rewrite list_lookup_fmap, lookup_annees by exact Hi. reflexivity.
Qed.

Lemma mapM_all {B C : Type} (f : B -> option C) (g : B -> C)
    (l : list B) :
  (forall x, x ∈ l -> f x = Some (g x)) -> mapM f l = Some (g <$> l).
Proof.
  induction l as [| x l IH]; intros H; [reflexivity |].
  cbn [mapM]. rewrite (H x) by (by left). cbn [mbind option_bind].
  rewrite IH by (intros y Hy; apply H; by right). reflexivity.
Qed.

Lemma column_eq (f : Bien -> Z -> Q) (bs : list Bien)
    (res : gmap string (list Q)) (i : nat) :
  (forall k, res !! k
             = if decide (k ∈ nom <$> bs)
               then Some (merged (fun b => f b <$> annees_of hyp) bs k)
               else None) ->
  (i < horizon hyp)%nat ->
  column res bs i = Some (column_of f bs i).
Proof.
  intros Hres Hi. unfold column, column_of. apply mapM_all.
  intros b Hb. rewrite Hres.
  rewrite decide_True by (by apply list_elem_of_fmap_2).
  cbn [mbind option_bind]. apply merged_lookup; assumption.
Qed.

(** The aggregation loop fills both arrays index by index. *)
Lemma totals_loop (bs : list Bien) (res : Resultats) (F G : nat -> list Q)
    (N : nat) :
  (forall i, (i < N)%nat -> column res.1 bs i = Some (F i)) ->
  (forall i, (i < N)%nat -> column res.2 bs i = Some (G i)) ->
  forall k, (k <= N)%nat ->
    for_each (total_body bs res) (seq 0 k) (replicate N 0, replicate N 0)
    = Some (((fun i => Py.sum (F i)) <$> seq 0 k) ++ replicate (N - k) 0,
            ((fun i => Py.sum (G i)) <$> seq 0 k) ++ replicate (N - k) 0).
Proof.
  intros HF HG. induction k as [| k IH]; intros Hk.
  - cbn [seq for_each fmap list_fmap app]. rewrite Nat.sub_0_r. reflexivity.
  - rewrite seq_S, for_each_app, IH by lia.
    cbn [mbind option_bind for_each]. unfold total_body.
    rewrite HF, HG by lia. cbn [mbind option_bind].
    rewrite !fmap_app, <- !app_assoc. cbn [fmap list_fmap app].
    replace (N - k)%nat with (Datatypes.S (N - Datatypes.S k)) by lia.
    rewrite !insert_app_r_alt
      by (rewrite length_fmap, length_seq; lia).
    rewrite !length_fmap, !length_seq, Nat.sub_diag. reflexivity.
Qed.

(** The whole method, in closed form: it always returns. *)
Lemma project_eq (self : ImmoApp) :
  exists rc ri,
    let tc := totals_of (bien_cashflow hyp) hyp (biens self) in
    let ti := totals_of (bien_imposable hyp) hyp (biens self) in
    _project_with_scenario self hyp
    = Some (mkProjection (annees_of hyp) rc ri tc ti
              (taxes_of (tmi hyp) ti) (taxes_of (ps hyp) ti)
              (zip_with Qminus
                 (zip_with Qminus tc (taxes_of (tmi hyp) ti))
                 (taxes_of (ps hyp) ti))) /\
    (forall k, rc !! k = if decide (k ∈ nom <$> biens self)
                         then Some (merged cfs (biens self) k) else None) /\
    (forall k, ri !! k = if decide (k ∈ nom <$> biens self)
                         then Some (merged imps (biens self) k) else None).
Proof.
  destruct (resultats_final (biens self)) as (rc & ri & Hrun & Hrc & Hri).
  exists rc, ri. cbv zeta. split; [| split; assumption].
  unfold _project_with_scenario. fold (annees_of hyp).
  rewrite Hrun. cbn [mbind option_bind].
  rewrite length_annees.
  pose proof (totals_loop (biens self) (rc, ri)
                (column_of (bien_cashflow hyp) (biens self))
                (column_of (bien_imposable hyp) (biens self))
                (horizon hyp)
                (fun i Hi => column_eq _ _ _ i Hrc Hi)
                (fun i Hi => column_eq _ _ _ i Hri Hi)
                (horizon hyp) (le_n _)) as Ht.
  rewrite Nat.sub_diag, !app_nil_r in Ht.
  rewrite Ht. cbn [mbind option_bind].
  fold (totals_of (bien_cashflow hyp) hyp (biens self)).
  fold (totals_of (bien_imposable hyp) hyp (biens self)).
  set (ti := totals_of (bien_imposable hyp) hyp (biens self)).
  assert (Hl : horizon hyp = length ti)
    by (unfold ti, totals_of; rewrite length_fmap, length_seq; reflexivity).
  rewrite Hl, !mapM_lookup_all. reflexivity.
Qed.

End Projection.

(** ** The per-property values and the specification's formulas *)

Lemma interest_of_year_nil (y : Z) : Spec.interest_of_year [] y = 0.
Proof. reflexivity. Qed.

Lemma interest_of_year_cons (row : Row) (df : list Row) (y : Z) :
  Spec.interest_of_year (row :: df) y
  = if decide (year row = y)
    then interest row + Spec.interest_of_year df y
    else Spec.interest_of_year df y.
Proof.
  unfold Spec.interest_of_year. rewrite filter_cons.
  destruct (decide (year row = y)); reflexivity.
Qed.

Lemma interets_par_an_from (df : list Row) (acc : gmap Z Q) (y : Z) :
  default 0
    (fold_left
       (fun acc row =>
          <[year row := default 0 (acc !! year row) + interest row]> acc)
       df acc !! y)
  == default 0 (acc !! y) + Spec.interest_of_year df y.
Proof.
  revert acc. induction df as [| row df IH]; intros acc.
  - cbn [fold_left]. rewrite interest_of_year_nil. ring.
  - cbn [fold_left]. rewrite IH, interest_of_year_cons.
    destruct (decide (year row = y)) as [<- | Hne].
    + rewrite lookup_insert_eq. cbn [from_option]. unfold id. ring.
    + rewrite lookup_insert_ne by exact Hne. reflexivity.
Qed.

Lemma interets_of_year (b : Bien) (y : Z) :
  default 0 (interets_of b !! y)
  == Spec.interest_of_year (default [] (amort b)) y.
Proof.
  unfold interets_of. destruct (amort b) as [df |]; cbn [from_option]; unfold id.
  - unfold interets_par_an_of. rewrite interets_par_an_from.
    rewrite lookup_empty. cbn [from_option]. ring.
  - rewrite lookup_empty. reflexivity.
Qed.

Lemma bien_cashflow_spec (hyp : HypScenario) (b : Bien) (y : Z) :
  bien_cashflow hyp b y = Spec.cash_flow hyp b y.
Proof. reflexivity. Qed.

Lemma bien_imposable_spec (hyp : HypScenario) (b : Bien) (y : Z) :
  bien_imposable hyp b y == Spec.taxable_income hyp b y.
Proof.
  unfold bien_imposable, year_values, Spec.taxable_income, Spec.interest.
  cbn [indexations fst]. pose proof (interets_of_year b y) as H.
  destruct (y <=? duree b)%Z.
  - cbn [fst]. unfold Spec.rent, Spec.charges_total, Spec.property_tax,
      Spec.compounded, Spec.charge. rewrite H. reflexivity.
  - reflexivity.
Qed.

(** ** Distinct names *)

Lemma homonymes_absent (bs : list Bien) (k : string) :
  k ∉ nom <$> bs -> homonymes k bs = [].
Proof.
  induction bs as [| b bs IH]; intros H; [reflexivity |].
  unfold homonymes in *. rewrite filter_cons.
  rewrite fmap_cons, not_elem_of_cons in H. destruct H as [H1 H2].
  rewrite decide_False by congruence. apply IH, H2.
Qed.

Lemma homonymes_unique (bs : list Bien) (b : Bien) :
  NoDup (nom <$> bs) -> b ∈ bs -> homonymes (nom b) bs = [b].
Proof.
  induction bs as [| b0 bs IH]; intros Hnd Hb.
  - by apply elem_of_nil in Hb.
  - rewrite fmap_cons in Hnd. apply NoDup_cons in Hnd as [Hnotin Hnd].
    unfold homonymes in *. rewrite filter_cons.
    apply elem_of_cons in Hb as [-> | Hb].
    + rewrite decide_True by reflexivity.
      f_equal. apply homonymes_absent, Hnotin.
    + rewrite decide_False.
      * apply IH; assumption.
      * intros E. apply Hnotin. rewrite E. by apply list_elem_of_fmap_2.
Qed.

Lemma representant_unique (bs : list Bien) (b : Bien) :
  NoDup (nom <$> bs) -> b ∈ bs -> representant bs b = b.
Proof.
  intros Hnd Hb. unfold representant.
  rewrite (homonymes_unique bs b Hnd Hb). reflexivity.
Qed.

Lemma column_of_unique (f : Bien -> Z -> Q) (bs : list Bien) (i : nat) :
  NoDup (nom <$> bs) ->
  column_of f bs i = (fun b => f b (1 + Z.of_nat i)%Z) <$> bs.
Proof.
  intros Hnd. unfold column_of. apply list_fmap_ext.
  intros j b Hj. rewrite representant_unique; [reflexivity | exact Hnd |].
  by apply list_elem_of_lookup_2 in Hj.
Qed.

Lemma merged_unique (f : Bien -> list Q) (bs : list Bien) (b : Bien) :
  NoDup (nom <$> bs) -> b ∈ bs -> merged f bs (nom b) = f b.
Proof.
  intros Hnd Hb. unfold merged. rewrite (homonymes_unique bs b Hnd Hb).
  simpl. apply app_nil_r.
Qed.

Lemma length_merged (hyp : HypScenario) (f : Bien -> Z -> Q)
    (bs : list Bien) (k : string) :
  length (merged (fun b => f b <$> annees_of hyp) bs k)
  = (length (homonymes k bs) * horizon hyp)%nat.
Proof.
  unfold merged. induction (homonymes k bs) as [| b l IH]; [reflexivity |].
  cbn [fmap list_fmap concat length]. rewrite length_app, IH.
  rewrite length_fmap, length_annees. reflexivity.
Qed.

Lemma lookup_totals (f : Bien -> Z -> Q) (hyp : HypScenario)
    (bs : list Bien) (i : nat) :
  (i < horizon hyp)%nat ->
  totals_of f hyp bs !! i = Some (Py.sum (column_of f bs i)).
Proof.
  intros Hi. unfold totals_of.
  rewrite list_lookup_fmap, lookup_seq_lt by exact Hi. reflexivity.
Qed.

Lemma length_totals (f : Bien -> Z -> Q) (hyp : HypScenario)
    (bs : list Bien) :
  length (totals_of f hyp bs) = horizon hyp.
Proof. unfold totals_of. rewrite length_fmap, length_seq. reflexivity. Qed.

(** ** The statements about the projection *)



(** C5. For every year of the aggregated projection the tax is
    [max(total taxable income, 0) * tmi], the levy is
    [max(total taxable income, 0) * ps], and the cash flow after tax is
    the total cash flow less both; when the total taxable income is
    negative, both are 0. *)
Theorem taxes_clamped (self : ImmoApp) (hyp : HypScenario) :
  exists p,
    _project_with_scenario self hyp = Some p /\
    length (res_total_cashflow p) = horizon hyp /\
    length (res_total_imposable p) = horizon hyp /\
    length (res_impots p) = horizon hyp /\
    length (res_ps p) = horizon hyp /\
    length (res_cf_after_tax p) = horizon hyp /\
    forall i t c,
      res_total_imposable p !! i = Some t ->
      res_total_cashflow p !! i = Some c ->
      exists tax levy,
        res_impots p !! i = Some tax /\
        res_ps p !! i = Some levy /\
        res_cf_after_tax p !! i = Some (c - tax - levy) /\
        tax == Qmax t 0 * tmi hyp /\
        levy == Qmax t 0 * ps hyp /\
        (t < 0 -> tax == 0 /\ levy == 0).
Proof.
  destruct (project_eq hyp self) as (rc & ri & Hp & _ & _).
  cbv zeta in Hp. eexists. split; [exact Hp |].
  cbn [res_total_cashflow res_total_imposable res_impots res_ps
       res_cf_after_tax].
  unfold taxes_of.
  rewrite !length_zip_with, !length_fmap, !length_totals.
  repeat (split; [lia |]).
  intros i t c Ht Hc.
  exists (Py.max t 0 * tmi hyp), (Py.max t 0 * ps hyp).
  rewrite !lookup_zip_with, !list_lookup_fmap, Ht, Hc.
  repeat (split; [reflexivity |]).
  split; [rewrite Py_max_Qmax; reflexivity |].
  split; [rewrite Py_max_Qmax; reflexivity |].
  intros Hneg. rewrite (Py_max_r t 0 Hneg). split; ring.
Qed.

Lemma taxes_clamped_witness :
  exists p tax levy,
    _project_with_scenario app_deficit hyp_plat = Some p /\
    res_total_imposable p !! 0%nat = Some (-100) /\
    res_impots p !! 0%nat = Some tax /\
    res_ps p !! 0%nat = Some levy /\
    tax == 0 /\ levy == 0.
Proof.
  destruct (taxes_clamped app_deficit hyp_plat)
    as (p & Hp & _ & _ & _ & _ & _ & H).
  assert (Ht : res_total_imposable p !! 0%nat = Some (-100) /\
               res_total_cashflow p !! 0%nat = Some (-100)).
  { vm_compute in Hp. injection Hp as <-. split; reflexivity. }
  destruct Ht as [Ht Hc].
  destruct (H 0%nat _ _ Ht Hc) as (tax & levy & H1 & H2 & _ & _ & _ & H0).
  destruct (H0 ltac:(reflexivity)) as [Htax Hlevy].
  exists p, tax, levy. repeat (split; [assumption |]). exact Hlevy.
Defined.

Lemma fmap_seq_const (c : Q) (j n : nat) :
  (fun _ => c) <$> seq j n = replicate n c.
Proof.
  revert j. induction n as [| n IH]; intros j; [reflexivity |].
  cbn [seq fmap list_fmap replicate]. f_equal. apply IH.
Qed.

(** C6, as stated, fails: with two properties entered under one name
    (rents 1200 and 600, no charge, no loan) the total cash flow of year 1
    is 2400, and the sum of the two properties' cash flows is 1800. *)
Lemma aggregation_counterexample :
  exists p t,
    _project_with_scenario app_homonymes hyp_plat = Some p /\
    res_total_cashflow p !! 0%nat = Some t /\
    ~ t == Qsum ((fun b => bien_cashflow hyp_plat b 1) <$> biens app_homonymes).
Proof.
  eexists. eexists. split; [vm_compute; reflexivity |].
  split; [reflexivity |]. by_eval.
Qed.

(** C6, amended.  When the names of the properties are distinct, the
    projection returns under each name the series of that property, and
    for every year the total cash flow is the sum of the properties' cash
    flows and the total taxable income the sum of their taxable incomes;
    this holds for any number of properties, and without any property the
    totals are series of zeros of the length of the horizon. *)
Theorem aggregation_distinct_names (self : ImmoApp) (hyp : HypScenario) :
  NoDup (nom <$> biens self) ->
  exists p,
    _project_with_scenario self hyp = Some p /\
    length (res_total_cashflow p) = horizon hyp /\
    length (res_total_imposable p) = horizon hyp /\
    (forall b, b ∈ biens self ->
       res_resultats_cashflow p !! nom b
       = Some (bien_cashflow hyp b <$> annees_of hyp) /\
       res_resultats_imposable p !! nom b
       = Some (bien_imposable hyp b <$> annees_of hyp)) /\
    (forall i, (i < horizon hyp)%nat ->
       exists tc ti,
         res_total_cashflow p !! i = Some tc /\
         res_total_imposable p !! i = Some ti /\
         tc == Qsum ((fun b => bien_cashflow hyp b (1 + Z.of_nat i)%Z)
                       <$> biens self) /\
         ti == Qsum ((fun b => bien_imposable hyp b (1 + Z.of_nat i)%Z)
                       <$> biens self)) /\
    (biens self = [] ->
       res_total_cashflow p = replicate (horizon hyp) 0 /\
       res_total_imposable p = replicate (horizon hyp) 0).
Proof.
  intros Hnd.
  destruct (project_eq hyp self) as (rc & ri & Hp & Hrc & Hri).
  cbv zeta in Hp. eexists. split; [exact Hp |].
  cbn [res_total_cashflow res_total_imposable res_resultats_cashflow
       res_resultats_imposable].
  split; [apply length_totals |]. split; [apply length_totals |].
  split; [| split].
  - intros b Hb.
    rewrite Hrc, Hri, !decide_True by (by apply list_elem_of_fmap_2).
    rewrite !(merged_unique _ _ _ Hnd Hb). split; reflexivity.
  - intros i Hi. eexists. eexists.
    split; [apply lookup_totals; exact Hi |].
    split; [apply lookup_totals; exact Hi |].
    rewrite !Py_sum_Qsum, !(column_of_unique _ _ _ Hnd).
    split; reflexivity.
  - intros He. unfold totals_of, column_of. rewrite He.
    cbn [fmap list_fmap]. unfold Py.sum. cbn [fold_left].
    split; apply fmap_seq_const.
Qed.

Lemma aggregation_distinct_names_witness :
  exists p tc,
    _project_with_scenario app_deux_biens hyp_plat = Some p /\
    res_total_cashflow p !! 0%nat = Some tc /\
    tc == Qsum ((fun b => bien_cashflow hyp_plat b 1)
                  <$> biens app_deux_biens).
Proof.
  destruct (aggregation_distinct_names app_deux_biens hyp_plat)
    as (p & Hp & _ & _ & _ & H & _).
  { apply (bool_decide_unpack _). by_eval. }
  destruct (H 0%nat) as (tc & ti & H1 & _ & H2 & _); [by_eval |].
  exists p, tc. split; [exact Hp |]. split; [exact H1 | exact H2].
Defined.

(** ** Indexation *)





(** ** Repeated calls *)


(** ** Properties that share a name *)

Lemma representant_pair (b1 b2 : Bien) :
  nom b1 = nom b2 ->
  representant [b1; b2] b1 = b1 /\ representant [b1; b2] b2 = b1.
Proof.
  intros Hn. unfold representant, homonymes. rewrite <- Hn.
  rewrite filter_cons, decide_True by reflexivity. split; reflexivity.
Qed.

(** C10. The series are kept in dictionaries keyed by the property name:
    under each name the projection returns the series of all the
    properties of that name, one after the other; the aggregation reads
    index [i] of that list once per property.  Two properties that share a
    name thus leave one list of twice the horizon, and each total is twice
    the value of the first of them.  When the names are distinct, each
    total is the sum of the properties' values. *)
Theorem homonymes_double_count (self : ImmoApp) (hyp : HypScenario) :
  exists p,
    _project_with_scenario self hyp = Some p /\
    (forall b, b ∈ biens self ->
       res_resultats_cashflow p !! nom b
       = Some (merged (fun b' => bien_cashflow hyp b' <$> annees_of hyp)
                 (biens self) (nom b)) /\
       res_resultats_imposable p !! nom b
       = Some (merged (fun b' => bien_imposable hyp b' <$> annees_of hyp)
                 (biens self) (nom b))) /\
    (forall i, (i < horizon hyp)%nat ->
       res_total_cashflow p !! i
       = Some (Py.sum (column_of (bien_cashflow hyp) (biens self) i)) /\
       res_total_imposable p !! i
       = Some (Py.sum (column_of (bien_imposable hyp) (biens self) i))) /\
    (forall b1 b2, biens self = [b1; b2] -> nom b1 = nom b2 ->
       exists cf ti,
         res_resultats_cashflow p !! nom b1 = Some cf /\
         res_resultats_imposable p !! nom b1 = Some ti /\
         cf = (bien_cashflow hyp b1 <$> annees_of hyp)
              ++ (bien_cashflow hyp b2 <$> annees_of hyp) /\
         ti = (bien_imposable hyp b1 <$> annees_of hyp)
              ++ (bien_imposable hyp b2 <$> annees_of hyp) /\
         length cf = (2 * horizon hyp)%nat /\
         length ti = (2 * horizon hyp)%nat /\
         forall i, (i < horizon hyp)%nat ->
           exists tc tt,
             res_total_cashflow p !! i = Some tc /\
             res_total_imposable p !! i = Some tt /\
             tc == 2 * bien_cashflow hyp b1 (1 + Z.of_nat i)%Z /\
             tt == 2 * bien_imposable hyp b1 (1 + Z.of_nat i)%Z) /\
    (NoDup (nom <$> biens self) ->
       forall i, (i < horizon hyp)%nat ->
         exists tc tt,
           res_total_cashflow p !! i = Some tc /\
           res_total_imposable p !! i = Some tt /\
           tc == Qsum ((fun b => bien_cashflow hyp b (1 + Z.of_nat i)%Z)
                         <$> biens self) /\
           tt == Qsum ((fun b => bien_imposable hyp b (1 + Z.of_nat i)%Z)
                         <$> biens self)).
Proof.
  destruct (project_eq hyp self) as (rc & ri & Hp & Hrc & Hri).
  cbv zeta in Hp. eexists. split; [exact Hp |].
  cbn [res_total_cashflow res_total_imposable res_resultats_cashflow
       res_resultats_imposable].
  assert (Hseries : forall b, b ∈ biens self ->
            rc !! nom b
            = Some (merged (fun b' => bien_cashflow hyp b' <$> annees_of hyp)
                      (biens self) (nom b)) /\
            ri !! nom b
            = Some (merged (fun b' => bien_imposable hyp b' <$> annees_of hyp)
                      (biens self) (nom b))).
  { intros b Hb.
    rewrite Hrc, Hri, !decide_True by (by apply list_elem_of_fmap_2).
    split; reflexivity. }
  split; [exact Hseries |].
  split; [intros i Hi; split; apply lookup_totals; exact Hi |].
  split.
  - intros b1 b2 He Hn.
    destruct (Hseries b1) as [H1 H2]; [rewrite He; by left |].
    assert (Hh : homonymes (nom b1) (biens self) = [b1; b2]).
    { rewrite He. unfold homonymes. rewrite !filter_cons, filter_nil.
      rewrite decide_True by reflexivity.
      rewrite decide_True by (symmetry; exact Hn). reflexivity. }
    eexists. eexists.
    split; [exact H1 |]. split; [exact H2 |].
    unfold merged. rewrite Hh. cbn [fmap list_fmap concat].
    rewrite !app_nil_r.
    split; [reflexivity |]. split; [reflexivity |].
    split; [rewrite length_app, !length_fmap, length_annees; lia |].
    split; [rewrite length_app, !length_fmap, length_annees; lia |].
    intros i Hi. eexists. eexists.
    split; [apply lookup_totals; exact Hi |].
    split; [apply lookup_totals; exact Hi |].
    destruct (representant_pair b1 b2 Hn) as [R1 R2].
    unfold column_of. rewrite He. cbn [fmap list_fmap].
    rewrite R1, R2. unfold Py.sum. cbn [fold_left].
    split; ring.
  - intros Hnd i Hi. eexists. eexists.
    split; [apply lookup_totals; exact Hi |].
    split; [apply lookup_totals; exact Hi |].
    rewrite !Py_sum_Qsum, !(column_of_unique _ _ _ Hnd).
    split; reflexivity.
Qed.

Lemma homonymes_double_count_witness :
  exists p cf tc,
    _project_with_scenario app_homonymes hyp_plat = Some p /\
    res_resultats_cashflow p !! "A" = Some cf /\
    length cf = 6%nat /\
    res_total_cashflow p !! 0%nat = Some tc /\
    tc == 2 * bien_cashflow hyp_plat bien_A1 1.
Proof.
  destruct (homonymes_double_count app_homonymes hyp_plat)
    as (p & Hp & _ & _ & H & _).
  destruct (H bien_A1 bien_A2) as (cf & ti & Hcf & _ & _ & _ & Hl & _ & Ht);
    [reflexivity | reflexivity |].
  destruct (Ht 0%nat) as (tc & tt & Htc & _ & Hv & _); [by_eval |].
  exists p, cf, tc. repeat (split; [assumption |]). exact Hv.
Defined.

(** * Further properties of the amortisation helpers *)

(** ** Where the payment computation raises *)

Lemma square_one (q : Q) : q * q == 1 -> q == 1 \/ q == -1.
Proof.
  intros H. assert (H0 : (q - 1) * (q + 1) == 0) by (ring_simplify; lra).
  apply Qmult_integral in H0 as [H0 | H0]; [left | right]; lra.
Qed.

Lemma power_one_base (s : Q) (k : Z) :
  0 < s -> (0 < k)%Z -> s ^ k == 1 -> s == 1.
Proof.
  intros Hs Hk H.
  destruct (Qlt_le_dec 1 s) as [Hgt | Hle].
  - pose proof (Qpower_1_lt s k Hgt Hk). lra.
  - destruct (Qlt_le_dec s 1) as [Hlt | Hge]; [| lra].
    assert (Hinv : 1 < / s).
    { apply Qlt_shift_inv_l; lra. }
    pose proof (Qpower_1_lt (/ s) k Hinv Hk) as Hp.
    rewrite Qinv_power, H in Hp. exfalso. revert Hp. apply Qlt_irrefl.
Qed.

Lemma even_power_one (q : Q) (k : Z) :
  (0 < k)%Z -> q ^ (2 * k) == 1 -> q == 1 \/ q == -1.
Proof.
  intros Hk H. apply square_one.
  destruct (Qeq_dec q 0) as [Hz | Hnz].
  - exfalso. rewrite Hz, Qpower_0 in H by lia. discriminate H.
  - rewrite Qpower_mult in H. change (q ^ 2) with (q * q) in H.
    apply (power_one_base (q * q) k); [| exact Hk | exact H].
    destruct (Qlt_le_dec q 0).
    + assert (Hn : 0 < (- q) * (- q)) by (apply Qmult_lt_0_compat; lra).
      assert (He : (- q) * (- q) == q * q) by ring.
      rewrite <- He. exact Hn.
    + apply Qmult_lt_0_compat; lra.
Qed.

Lemma minus_one_even_power (k : Z) : (-1) ^ (2 * k) == 1.
Proof.
  rewrite Qpower_mult. change ((-1) ^ 2) with 1. apply Qpower_1.
Qed.

Lemma Qinv_one (x : Q) : / x == 1 -> x == 1.
Proof.
  intros H. rewrite <- (Qinv_involutive x), H. reflexivity.
Qed.

Lemma mensualite_None_iff (capital taux_annuel : Q) (duree_annees : Z) :
  mensualite_credit capital taux_annuel duree_annees = None
  <-> (0 < duree_annees)%Z /\ (taux_annuel == -12 \/ taux_annuel == -24).
Proof.
  unfold mensualite_credit.
  set (n := (duree_annees * 12)%Z). set (r := taux_annuel / 12).
  assert (Hr : taux_annuel == 12 * r) by (unfold r; field).
  split.
  - destruct (n <=? 0)%Z eqn:En; [discriminate |].
    apply Z.leb_gt in En.
    destruct (Qlt_le_dec (Qabs r) epsilon) as [| Habs]; [discriminate |].
    intros H. split; [lia |].
    unfold Py.pow in H.
    destruct (Qeq_bool (1 + r) 0 && (- n <? 0)%Z) eqn:E.
    + apply andb_prop in E as [E _]. apply Qeq_bool_iff in E.
      left. lra.
    + cbn [mbind option_bind] in H. unfold Py.div in H.
      destruct (Qeq_bool (1 - (1 + r) ^ (- n)) 0) eqn:E2; [| discriminate].
      apply Qeq_bool_iff in E2.
      assert (Hp : (1 + r) ^ n == 1).
      { apply Qinv_one. rewrite <- Qpower_opp. lra. }
      replace n with (2 * (duree_annees * 6))%Z in Hp by lia.
      apply even_power_one in Hp; [| lia].
      destruct Hp as [Hp | Hp]; [| right; lra].
      exfalso. assert (H0 : r == 0) by lra.
      assert (Ha : Qabs r == 0) by (rewrite H0; reflexivity).
      pose proof epsilon_pos. lra.
  - intros [Hd Ht].
    replace (n <=? 0)%Z with false by (symmetry; apply Z.leb_gt; lia).
    destruct Ht as [Ht | Ht].
    + assert (H1 : r == -1) by lra.
      destruct (Qlt_le_dec (Qabs r) epsilon) as [Habs |].
      { exfalso. assert (Ha : Qabs r == 1) by (rewrite H1; reflexivity).
        assert (epsilon < 1) by reflexivity. lra. }
      unfold Py.pow.
      replace (Qeq_bool (1 + r) 0) with true
        by (symmetry; apply Qeq_bool_iff; lra).
      replace (- n <? 0)%Z with true by (symmetry; apply Z.ltb_lt; lia).
      reflexivity.
    + assert (H2 : r == -2) by lra.
      destruct (Qlt_le_dec (Qabs r) epsilon) as [Habs |].
      { exfalso. assert (Ha : Qabs r == 2) by (rewrite H2; reflexivity).
        assert (epsilon < 2) by reflexivity. lra. }
      unfold Py.pow.
      replace (Qeq_bool (1 + r) 0) with false
        by (symmetry; apply not_true_is_false; intros E;
            apply Qeq_bool_iff in E; lra).
      cbn [andb mbind option_bind]. unfold Py.div.
      replace (Qeq_bool (1 - (1 + r) ^ (- n)) 0) with true; [reflexivity |].
      symmetry. apply Qeq_bool_iff.
      assert (Hb : 1 + r == -1) by lra.
      rewrite Hb, Qpower_opp.
      replace n with (2 * (duree_annees * 6))%Z by lia.
      rewrite minus_one_even_power. reflexivity.
Qed.

Lemma tableau_None_iff (capital taux_annuel : Q) (duree_annees : Z) :
  tableau_amortissement capital taux_annuel duree_annees = None
  <-> mensualite_credit capital taux_annuel duree_annees = None.
Proof.
  unfold tableau_amortissement.
  destruct (duree_annees * 12 <=? 0)%Z eqn:En.
  - split; [discriminate |]. intros H. apply mensualite_None_iff in H. lia.
  - destruct (mensualite_credit capital taux_annuel duree_annees);
      split; intros H; try discriminate; reflexivity.
Qed.





(** ** The calendar columns and the clamps *)

(** Whatever is returned is the list of the rows of the recurrence. *)
Lemma tableau_Some (capital taux_annuel : Q) (duree_annees : Z)
    (rows : list Row) :
  tableau_amortissement capital taux_annuel duree_annees = Some rows ->
  ((duree_annees * 12 <= 0)%Z /\ rows = []) \/
  ((0 < duree_annees * 12)%Z /\
   exists m,
     mensualite_credit capital taux_annuel duree_annees = Some m /\
     rows = row_at capital (taux_annuel / 12) m
              <$> seq 0 (Z.to_nat (duree_annees * 12))).
Proof.
  intros H. destruct (Z_lt_le_dec 0 (duree_annees * 12)) as [Hn | Hn].
  - right. split; [exact Hn |].
    destruct (mensualite_credit capital taux_annuel duree_annees)
      as [m |] eqn:Em.
    + exists m. split; [reflexivity |].
      rewrite (tableau_rows _ _ _ m Hn Em) in H. congruence.
    + apply tableau_None_iff in Em. congruence.
  - left. split; [exact Hn |]. unfold tableau_amortissement in H.
    replace (duree_annees * 12 <=? 0)%Z with true in H
      by (symmetry; apply Z.leb_le; exact Hn).
    congruence.
Qed.

(** A one-year loan of 1200 without interest. *)
Lemma exemple_tableau :
  tableau_amortissement 1200 0 1
  = Some (row_at 1200 (0 / 12) (1200 / inject_Z (1 * 12)) <$> seq 0 12).
Proof.
  apply (tableau_rows 1200 0 1); [by_eval |].
  apply mensualite_lineaire; by_eval.
Qed.

Lemma row_calendar (capital r m : Q) (d : Z) (k : nat) :
  (k < Z.to_nat (d * 12))%nat ->
  let row := row_at capital r m k in
  month_index row = (Z.of_nat k + 1)%Z /\
  (1 <= month row <= 12)%Z /\
  (1 <= year row <= d)%Z /\
  month_index row = (12 * (year row - 1) + month row)%Z.
Proof.
  intros Hlt. unfold row_at. cbn [month_index month year].
  replace (Z.of_nat k + 1 - 1)%Z with (Z.of_nat k) by lia.
  pose proof (Z.div_mod (Z.of_nat k) 12 ltac:(lia)) as Hdm.
  pose proof (Z.mod_pos_bound (Z.of_nat k) 12 ltac:(lia)) as Hmod.
  assert (Hq : (0 <= Z.of_nat k / 12 < d)%Z).
  { split; [apply Z.div_pos; lia |].
    apply Z.div_lt_upper_bound; lia. }
  repeat split; lia.
Qed.

(** X3. In every table returned, the row of index [k] is month [k+1]:
    its month is between 1 and 12, its year between 1 and the duration,
    and [month_index = 12*(year-1) + month]; the payment is the same on
    every row. *)
Theorem tableau_calendar (capital taux_annuel : Q) (duree_annees : Z)
    (rows : list Row) (k : nat) (row : Row) :
  tableau_amortissement capital taux_annuel duree_annees = Some rows ->
  rows !! k = Some row ->
  month_index row = (Z.of_nat k + 1)%Z /\
  (1 <= month row <= 12)%Z /\
  (1 <= year row <= duree_annees)%Z /\
  month_index row = (12 * (year row - 1) + month row)%Z /\
  mensualite_credit capital taux_annuel duree_annees = Some (payment row).
Proof.
  intros Ht Hk. apply tableau_Some in Ht as [[_ ->] | (Hn & m & Hm & ->)].
  - discriminate.
  - apply lookup_rows in Hk as [Hlt ->].
    destruct (row_calendar capital (taux_annuel / 12) m duree_annees k Hlt)
      as (H1 & H2 & H3 & H4).
    repeat (split; [assumption |]). exact Hm.
Qed.

Lemma tableau_calendar_witness :
  exists rows row,
    tableau_amortissement 1200 0 1 = Some rows /\
    rows !! 11%nat = Some row /\
    month_index row = 12%Z /\ month row = 12%Z /\ year row = 1%Z.
Proof.
  pose proof exemple_tableau as Ht.
  eexists. eexists. split; [exact Ht |]. split; [reflexivity |].
  destruct (tableau_calendar 1200 0 1 _ 11 _ Ht eq_refl)
    as (H1 & H2 & H3 & H4 & _).
  lia.
Defined.

(** X4. For every input, also a negative rate or loan, every row of the
    table has a non-negative principal and a non-negative balance; when
    the loan is not negative, no row's balance exceeds the balance before
    it. *)
Theorem tableau_clamps (capital taux_annuel : Q) (duree_annees : Z)
    (rows : list Row) (k : nat) (row : Row) :
  tableau_amortissement capital taux_annuel duree_annees = Some rows ->
  rows !! k = Some row ->
  0 <= principal row /\
  0 <= balance row /\
  (0 <= capital -> balance row <= balance_before capital rows k).
Proof.
  intros Ht Hk. apply tableau_Some in Ht as [[_ ->] | (Hn & m & Hm & ->)].
  - discriminate.
  - apply lookup_rows in Hk as [Hlt ->].
    rewrite balance_before_rows by exact Hlt.
    unfold row_at. cbn [principal balance].
    set (r := taux_annuel / 12).
    split; [apply Py_max_ge_r |]. split; [apply Py_max_ge_l |].
    intros Hc.
    assert (Hb : 0 <= balance_after capital r m k).
    { destruct k as [| j]; [exact Hc | apply Py_max_ge_l]. }
    cbn [balance_after].
    pose proof (Py_max_ge_r (m - balance_after capital r m k * r) 0) as Hp.
    unfold Py.max at 1.
    destruct (Qlt_le_dec 0 _); lra.
Qed.

Lemma tableau_clamps_witness :
  exists rows row,
    tableau_amortissement 1200 0 1 = Some rows /\
    rows !! 11%nat = Some row /\
    0 <= principal row /\ 0 <= balance row /\
    balance row <= balance_before 1200 rows 11.
Proof.
  pose proof exemple_tableau as Ht.
  eexists. eexists. split; [exact Ht |]. split; [reflexivity |].
  destruct (tableau_clamps 1200 0 1 _ 11 _ Ht eq_refl) as (H1 & H2 & H3).
  split; [exact H1 |]. split; [exact H2 |]. apply H3. by_eval.
Defined.

(** ** Constant annuities: interest and principal *)

Section AnnuiteColonnes.

Variables (capital r : Q) (n : Z).
Hypothesis capital_pos : 0 < capital.
Hypothesis r_pos : 0 < r.
Hypothesis n_pos : (0 < n)%Z.

Let m : Q := capital * (r / (1 - (1 + r) ^ (- n))).

Let P (k : nat) : Q := m - balance_after capital r m k * r.




Lemma row_principal (k : nat) :
  (Z.of_nat (S k) <= n)%Z -> principal (row_at capital r m k) = P k.
Proof.
  intros Hk. unfold row_at, P. cbn [principal].
  apply Py_max_l.
  apply (interest_le_payment capital r n capital_pos r_pos n_pos k Hk).
Qed.



End AnnuiteColonnes.





(** ** Straight-line repayment *)

Section TauxNul.

Variables (capital r : Q) (n : Z).
Hypothesis capital_nonneg : 0 <= capital.
Hypothesis r_zero : r == 0.
Hypothesis n_pos : (0 < n)%Z.

Let m : Q := capital / inject_Z n.

Lemma taux_nul_total : inject_Z n * m == capital.
Proof.
  unfold m. assert (0 < inject_Z n)
    by (change 0 with (inject_Z 0); rewrite <- Zlt_Qlt; exact n_pos).
  field. lra.
Qed.

Lemma taux_nul_payment : 0 <= m.
Proof.
  unfold m. assert (0 < inject_Z n)
    by (change 0 with (inject_Z 0); rewrite <- Zlt_Qlt; exact n_pos).
  apply Qle_shift_div_l; lra.
Qed.

Lemma taux_nul_balance (k : nat) :
  (Z.of_nat k <= n)%Z ->
  balance_after capital r m k == capital - inject_Z (Z.of_nat k) * m.
Proof.
  pose proof taux_nul_total as Ht. pose proof taux_nul_payment as Hm.
  induction k as [| k IH]; intros Hk.
  - cbn [balance_after]. change (inject_Z (Z.of_nat 0)) with 0. ring.
  - specialize (IH ltac:(lia)). cbn [balance_after].
    set (b := balance_after capital r m k) in *.
    assert (Hi : b * r == 0) by (rewrite r_zero; ring).
    assert (Hp : 0 <= m - b * r) by lra.
    rewrite (Py_max_l _ _ Hp).
    assert (HS : inject_Z (Z.of_nat (S k)) == inject_Z (Z.of_nat k) + 1).
    { rewrite Nat2Z.inj_succ. unfold Z.succ. rewrite inject_Z_plus.
      reflexivity. }
    assert (Hle : inject_Z (Z.of_nat (S k)) <= inject_Z n)
      by (rewrite <- Zle_Qle; exact Hk).
    assert (Hprod : 0 <= (inject_Z n - inject_Z (Z.of_nat (S k))) * m)
      by (apply Qmult_le_0_compat; lra).
    assert (H0 : 0 <= b - (m - b * r)).
    { rewrite HS in Hprod. nra. }
    rewrite (Py_max_0_nonneg _ H0), HS. lra.
Qed.

Lemma taux_nul_principal (k : nat) :
  principal (row_at capital r m k) == m.
Proof.
  unfold row_at. cbn [principal].
  set (b := balance_after capital r m k).
  assert (Hi : b * r == 0) by (rewrite r_zero; ring).
  pose proof taux_nul_payment.
  rewrite Py_max_l by lra. lra.
Qed.

Lemma taux_nul_principal_sum (k : nat) :
  Qsum (principal <$> (row_at capital r m <$> seq 0 k))
  == inject_Z (Z.of_nat k) * m.
Proof.
  induction k as [| k IH].
  - unfold Qsum. simpl. ring.
  - rewrite seq_S, !fmap_app, Qsum_app, IH.
    cbn [Nat.add fmap list_fmap]. unfold Qsum. cbn [foldr].
    rewrite taux_nul_principal.
    rewrite Nat2Z.inj_succ. unfold Z.succ. rewrite inject_Z_plus.
    change (inject_Z 1) with 1. ring.
Qed.

End TauxNul.

(** X7. At a zero rate, for a loan that is not negative and a positive
    duration, every row repays [capital / n]; the balance after month
    [k+1] is [capital - (k+1) * capital / n], so the last balance is 0
    and the principal column sums to the loan. *)
Theorem taux_zero_lineaire (capital taux_annuel : Q) (duree_annees : Z) :
  0 <= capital -> taux_annuel == 0 -> (0 < duree_annees)%Z ->
  let n := (duree_annees * 12)%Z in
  exists rows,
    tableau_amortissement capital taux_annuel duree_annees = Some rows /\
    (forall k row, rows !! k = Some row ->
       principal row == capital / inject_Z n /\
       balance row
       == capital - inject_Z (Z.of_nat k + 1) * (capital / inject_Z n)) /\
    (exists row, last rows = Some row /\ balance row == 0) /\
    Qsum (principal <$> rows) == capital.
Proof.
  intros Hc Ht Hd n.
  assert (Hn : (0 < n)%Z) by (unfold n; lia).
  assert (Hr : taux_annuel / 12 == 0) by (rewrite Ht; reflexivity).
  set (r := taux_annuel / 12) in *.
  set (m := capital / inject_Z n).
  assert (Hm : mensualite_credit capital taux_annuel duree_annees = Some m).
  { apply mensualite_lineaire; [exact Hn |]. fold r.
    apply Qabs_Qlt_condition. rewrite Hr. split; reflexivity. }
  eexists. split; [apply tableau_rows; [exact Hn | exact Hm] |].
  fold r n. split; [| split].
  - intros k row Hk. apply lookup_rows in Hk as [Hlt ->].
    split; [apply (taux_nul_principal capital r n Hc Hr Hn) |].
    change (balance (row_at capital r m k))
      with (balance_after capital r m (S k)).
    pose proof (taux_nul_balance capital r n Hc Hr Hn (S k) ltac:(lia))
      as Hb.
    fold m in Hb. rewrite Hb, Nat2Z.inj_succ. reflexivity.
  - destruct (Z.to_nat n) as [| j] eqn:E; [lia |].
    exists (row_at capital r m j). split.
    + rewrite seq_S, fmap_app. apply last_snoc.
    + change (balance (row_at capital r m j))
        with (balance_after capital r m (S j)).
      pose proof (taux_nul_balance capital r n Hc Hr Hn (S j) ltac:(lia))
        as Hb.
      pose proof (taux_nul_total capital n Hn) as Htot.
      replace (Z.of_nat (S j)) with n in Hb by lia.
      fold m in Hb, Htot. rewrite Hb, Htot. ring.
  - pose proof (taux_nul_principal_sum capital r n Hc Hr Hn (Z.to_nat n))
      as Hs.
    pose proof (taux_nul_total capital n Hn) as Htot.
    rewrite Z2Nat.id in Hs by lia.
    fold m in Hs, Htot. rewrite Hs. exact Htot.
Qed.

Lemma taux_zero_lineaire_witness :
  exists rows,
    tableau_amortissement 1200 0 1 = Some rows /\
    (forall k row, rows !! k = Some row ->
       principal row == 1200 / inject_Z (1 * 12) /\
       balance row
       == 1200 - inject_Z (Z.of_nat k + 1) * (1200 / inject_Z (1 * 12))) /\
    (exists row, last rows = Some row /\ balance row == 0) /\
    Qsum (principal <$> rows) == 1200.
Proof. apply (taux_zero_lineaire 1200 0 1); by_eval. Defined.



(** ** The interest of each year *)

Lemma filter_all {A : Type} (P : A -> Prop) `{!forall x, Decision (P x)}
    (l : list A) :
  Forall P l -> filter P l = l.
Proof.
  induction 1 as [| x l Hx Hl IH]; [reflexivity |].
  rewrite filter_cons, decide_True by exact Hx. f_equal. exact IH.
Qed.

Lemma filter_none {A : Type} (P : A -> Prop) `{!forall x, Decision (P x)}
    (l : list A) :
  Forall (fun x => ~ P x) l -> filter P l = [].
Proof.
  induction 1 as [| x l Hx Hl IH]; [reflexivity |].
  rewrite filter_cons, decide_False by exact Hx. exact IH.
Qed.

(** The dictionary has a key for a year exactly when a row bears it. *)
Lemma interets_par_an_keys (df : list Row) (acc : gmap Z Q) (y : Z) :
  is_Some
    (fold_left
       (fun acc row =>
          <[year row := default 0 (acc !! year row) + interest row]> acc)
       df acc !! y)
  <-> is_Some (acc !! y) \/ Exists (fun row => year row = y) df.
Proof.
  revert acc. induction df as [| row df IH]; intros acc; cbn [fold_left].
  - rewrite Exists_nil. tauto.
  - rewrite IH, Exists_cons.
    destruct (decide (year row = y)) as [<- | Hne].
    + rewrite lookup_insert_eq. split; [intros _ | intros _; left]; eauto.
    + rewrite lookup_insert_ne by exact Hne. tauto.
Qed.

Lemma year_row_at (capital r m : Q) (k : nat) :
  year (row_at capital r m k) = (Z.of_nat k / 12 + 1)%Z.
Proof.
  unfold row_at. cbn [year]. f_equal. f_equal. lia.
Qed.

(** The rows of year [Y+1] are the twelve rows from index [12*Y]. *)
Lemma rows_of_year (capital r m : Q) (d Y : nat) :
  (Y < d)%nat ->
  filter (fun row => year row = (Z.of_nat Y + 1)%Z)
    (row_at capital r m <$> seq 0 (12 * d))
  = take 12 (drop (12 * Y) (row_at capital r m <$> seq 0 (12 * d))).
Proof.
  intros HY.
  rewrite <- fmap_drop, <- fmap_take, drop_seq, take_seq.
  replace (12 `min` (12 * d - 12 * Y))%nat with 12%nat by lia.
  replace (12 * d)%nat with (12 * Y + (12 + (12 * d - 12 * Y - 12)))%nat
    at 1 by lia.
  rewrite !seq_app, !fmap_app, !filter_app.
  rewrite (filter_none _ (row_at capital r m <$> seq 0 (12 * Y))).
  2:{ apply Forall_fmap, Forall_seq. intros j Hj. cbn [compose].
      rewrite year_row_at.
      assert (Z.of_nat j / 12 < Z.of_nat Y)%Z
        by (apply Z.div_lt_upper_bound; lia).
      lia. }
  rewrite (filter_none _ (row_at capital r m <$> seq (0 + 12 * Y + 12) _)).
  2:{ apply Forall_fmap, Forall_seq. intros j Hj. cbn [compose].
      rewrite year_row_at.
      assert (Z.of_nat Y + 1 <= Z.of_nat j / 12)%Z
        by (apply Z.div_le_lower_bound; lia).
      lia. }
  rewrite (filter_all _ (row_at capital r m <$> seq (0 + 12 * Y) 12)).
  2:{ apply Forall_fmap, Forall_seq. intros j Hj. cbn [compose].
      rewrite year_row_at. f_equal.
      symmetry. apply (Z.div_unique _ _ _ (Z.of_nat j - 12 * Z.of_nat Y));
        lia. }
  rewrite app_nil_r. reflexivity.
Qed.

Lemma interets_keys_tableau (capital taux_annuel : Q) (duree_annees : Z)
    (rows : list Row) (y : Z) :
  tableau_amortissement capital taux_annuel duree_annees = Some rows ->
  is_Some (interets_par_an_of rows !! y) <-> (1 <= y <= duree_annees)%Z.
Proof.
  intros Ht.
  unfold interets_par_an_of. rewrite interets_par_an_keys, lookup_empty.
  rewrite Exists_exists. split.
  - intros [[? ?] | (row & Hin & Hy)]; [discriminate |].
    apply list_elem_of_lookup in Hin as [k Hk].
    apply tableau_Some in Ht as [[_ ->] | (Hn & m & Hm & ->)];
      [discriminate |].
    apply lookup_rows in Hk as [Hlt ->].
    destruct (row_calendar capital (taux_annuel / 12) m duree_annees k Hlt)
      as (_ & _ & H & _).
    lia.
  - intros Hy. right.
    apply tableau_Some in Ht as [[Hn ->] | (Hn & m & Hm & ->)]; [lia |].
    exists (row_at capital (taux_annuel / 12) m (12 * Z.to_nat (y - 1))).
    split.
    + apply list_elem_of_fmap_2, elem_of_seq. lia.
    + rewrite year_row_at.
      replace (Z.of_nat (12 * Z.to_nat (y - 1))) with ((y - 1) * 12)%Z
        by lia.
      rewrite Z.div_mul by lia. lia.
Qed.

Lemma interets_value_tableau (capital taux_annuel : Q) (duree_annees : Z)
    (rows : list Row) (y : Z) :
  tableau_amortissement capital taux_annuel duree_annees = Some rows ->
  (1 <= y <= duree_annees)%Z ->
  default 0 (interets_par_an_of rows !! y)
  == Qsum (interest <$> rows_of_year_at rows y).
Proof.
  intros Ht Hy.
  pose proof (interets_par_an_from rows ∅ y) as Hsum.
  fold (interets_par_an_of rows) in Hsum.
  rewrite lookup_empty in Hsum. cbn [from_option] in Hsum.
  rewrite Hsum. unfold Spec.interest_of_year, rows_of_year_at.
  apply tableau_Some in Ht as [[Hn ->] | (Hn & m & Hm & ->)]; [lia |].
  replace (Z.to_nat (duree_annees * 12))
    with (12 * Z.to_nat duree_annees)%nat by lia.
  pose proof (rows_of_year capital (taux_annuel / 12) m
                (Z.to_nat duree_annees) (Z.to_nat (y - 1)) ltac:(lia))
    as Hrows.
  replace (Z.of_nat (Z.to_nat (y - 1)) + 1)%Z with y in Hrows by lia.
  rewrite Hrows. ring.
Qed.

(** X9. The interest-per-year dictionary built from a table has a key
    for exactly the years 1 to [duree_annees], and its value for year
    [y] is the sum of the interest of the twelve rows from index
    [12*(y-1)]. *)
Theorem interets_par_an_tableau (capital taux_annuel : Q)
    (duree_annees : Z) (rows : list Row) (y : Z) :
  tableau_amortissement capital taux_annuel duree_annees = Some rows ->
  ((1 <= y <= duree_annees)%Z ->
     exists v,
       interets_par_an_of rows !! y = Some v /\
       v == Qsum (interest
                    <$> take 12 (drop (12 * Z.to_nat (y - 1)) rows))) /\
  (~ (1 <= y <= duree_annees)%Z -> interets_par_an_of rows !! y = None).
Proof.
  intros Ht.
  pose proof (interets_keys_tableau _ _ _ _ y Ht) as Hkeys.
  split.
  - intros Hy. destruct (proj2 Hkeys Hy) as [v Hv].
    exists v. split; [exact Hv |].
    pose proof (interets_value_tableau _ _ _ _ y Ht Hy) as Hval.
    rewrite Hv in Hval. exact Hval.
  - intros Hy. destruct (interets_par_an_of rows !! y) eqn:E;
      [| reflexivity].
    exfalso. apply Hy, Hkeys. eauto.
Qed.

Lemma interets_par_an_tableau_witness :
  exists rows v,
    tableau_amortissement 1200 0 1 = Some rows /\
    interets_par_an_of rows !! 1%Z = Some v /\
    v == Qsum (interest <$> take 12 (drop (12 * Z.to_nat (1 - 1)) rows)) /\
    interets_par_an_of rows !! 2%Z = None.
Proof.
  pose proof exemple_tableau as Ht.
  destruct (interets_par_an_tableau 1200 0 1 _ 1 Ht) as [H1 _].
  destruct (interets_par_an_tableau 1200 0 1 _ 2 Ht) as [_ H2].
  destruct (H1 ltac:(lia)) as (v & Hv & Hs).
  eexists. exists v. split; [exact Ht |]. split; [exact Hv |].
  split; [exact Hs |]. apply H2. lia.
Defined.

(** * Further properties of the projection *)

Lemma Qsum_pair_columns (m : Q) (l : list Row) :
  Forall (fun row => interest row + principal row == m) l ->
  Qsum (interest <$> l) + Qsum (principal <$> l)
  == inject_Z (Z.of_nat (length l)) * m.
Proof.
  induction 1 as [| row l Hrow Hl IH].
  - unfold Qsum. simpl. ring.
  - cbn [fmap list_fmap length]. unfold Qsum in *. cbn [foldr].
    rewrite Nat2Z.inj_succ. unfold Z.succ. rewrite inject_Z_plus.
    change (inject_Z 1) with 1. rewrite Qmult_plus_distr_l, <- IH, <- Hrow.
    ring.
Qed.

(** The table of a positive loan at a rate of at least 1e-12: every row
    splits the payment into interest and principal. *)
Lemma annuite_rows (capital taux_annuel : Q) (duree_annees : Z) :
  0 < capital -> epsilon <= taux_annuel / 12 -> (0 < duree_annees)%Z ->
  exists m rows,
    mensualite_credit capital taux_annuel duree_annees = Some m /\
    tableau_amortissement capital taux_annuel duree_annees = Some rows /\
    length rows = Z.to_nat (duree_annees * 12) /\
    Forall (fun row => interest row + principal row == m) rows.
Proof.
  intros Hc Hr Hd. pose proof epsilon_pos as He.
  set (r := taux_annuel / 12) in *. set (n := (duree_annees * 12)%Z).
  assert (Hrp : 0 < r) by lra. assert (Hn : (0 < n)%Z) by (unfold n; lia).
  pose proof (mensualite_taux_positif capital taux_annuel duree_annees Hd Hr)
    as Hm.
  fold r n in Hm.
  eexists. eexists. split; [exact Hm |].
  split; [apply tableau_rows; [exact Hn | exact Hm] |].
  fold r n. split; [rewrite length_fmap, length_seq; reflexivity |].
  apply Forall_fmap, Forall_seq. intros k Hk. cbn [compose].
  rewrite (row_principal capital r n Hc Hrp Hn k ltac:(lia)).
  unfold row_at. cbn [interest]. ring.
Qed.

(** X10. For a property entered with a positive loan, a monthly rate of
    at least 1e-12 and a positive duration, the taxable income of a year
    within the loan exceeds the cash flow by the principal repaid in the
    twelve months of that year; after the loan the two are equal. *)
Theorem imposable_moins_cashflow (hyp : HypScenario) (nom0 : string)
    (prix0 emprunt0 : Q) (duree0 : Z) (taux0 loyer0 : Q)
    (charges0 : gmap string Q) (self : ImmoApp) (y : Z) :
  0 < emprunt0 -> epsilon <= taux0 / 12 -> (0 < duree0)%Z ->
  exists b,
    biens (add_bien nom0 prix0 emprunt0 duree0 taux0 loyer0 charges0 self)
    = biens self ++ [b] /\
    ((1 <= y <= duree0)%Z ->
       bien_imposable hyp b y - bien_cashflow hyp b y
       == Qsum (principal <$> rows_of_year_at (rows_of b) y)) /\
    ((duree0 < y)%Z -> bien_imposable hyp b y = bien_cashflow hyp b y).
Proof.
  intros Hc Hr Hd.
  destruct (annuite_rows emprunt0 taux0 duree0 Hc Hr Hd)
    as (m & rows & Hm & Ht & Hlen & Hrows).
  exists (mkBien nom0 prix0 emprunt0 duree0 taux0 loyer0 charges0 m
            (Some rows)).
  split; [unfold add_bien; rewrite Hm, Ht; reflexivity |].
  split.
  - intros Hy.
    rewrite bien_imposable_spec, bien_cashflow_spec.
    unfold Spec.taxable_income, Spec.cash_flow, Spec.interest, Spec.annuity,
      rows_of.
    cbn [amort mensualite duree from_option]. unfold id.
    replace (y <=? duree0)%Z with true by (symmetry; apply Z.leb_le; lia).
    pose proof (interets_value_tableau emprunt0 taux0 duree0 rows y Ht Hy)
      as Hval.
    pose proof (interets_par_an_from rows ∅ y) as Hsum.
    fold (interets_par_an_of rows) in Hsum.
    rewrite lookup_empty in Hsum. cbn [from_option] in Hsum.
    rewrite Hsum in Hval.
    assert (Hpair : Qsum (interest <$> rows_of_year_at rows y)
                    + Qsum (principal <$> rows_of_year_at rows y)
                    == 12 * m).
    { rewrite (Qsum_pair_columns m).
      - unfold rows_of_year_at.
        rewrite length_take, length_drop, Hlen.
        replace (Z.of_nat (12 `min` (Z.to_nat (duree0 * 12)
                                     - 12 * Z.to_nat (y - 1))))
          with 12%Z by lia.
        reflexivity.
      - unfold rows_of_year_at. apply Forall_take, Forall_drop, Hrows. }
    lra.
  - intros Hy. unfold bien_imposable, bien_cashflow, year_values.
    cbn [indexations duree fst snd].
    replace (y <=? duree0)%Z with false by (symmetry; apply Z.leb_gt; lia).
    reflexivity.
Qed.

Lemma imposable_moins_cashflow_witness :
  exists b,
    biens (add_bien "A" 0 100000 20 (3 # 100) 12000 charges_nulles app_vide)
    = biens app_vide ++ [b] /\
    bien_imposable hyp_plat b 2 - bien_cashflow hyp_plat b 2
    == Qsum (principal <$> rows_of_year_at (rows_of b) 2) /\
    bien_imposable hyp_plat b 21 = bien_cashflow hyp_plat b 21.
Proof.
  destruct (imposable_moins_cashflow hyp_plat "A" 0 100000 20 (3 # 100)
              12000 charges_nulles app_vide 2) as (b & Hb & H1 & _);
    [by_eval | by_eval | by_eval |].
  destruct (imposable_moins_cashflow hyp_plat "A" 0 100000 20 (3 # 100)
              12000 charges_nulles app_vide 21) as (b' & Hb' & _ & H2);
    [by_eval | by_eval | by_eval |].
  assert (b' = b).
  { rewrite Hb in Hb'. apply app_inv_head in Hb'. congruence. }
  subst b'. exists b. split; [exact Hb |].
  split; [apply H1; lia | apply H2; lia].
Defined.

(** X11. With a horizon of zero or less no year is projected: the
    projection returns empty totals, taxes and cash flow after tax, and
    an empty series under the name of every property. *)
Theorem horizon_nul (self : ImmoApp) (hyp : HypScenario) :
  (duree_projection hyp <= 0)%Z ->
  exists p,
    _project_with_scenario self hyp = Some p /\
    res_annees p = [] /\
    res_total_cashflow p = [] /\ res_total_imposable p = [] /\
    res_impots p = [] /\ res_ps p = [] /\ res_cf_after_tax p = [] /\
    forall b, b ∈ biens self ->
      res_resultats_cashflow p !! nom b = Some [] /\
      res_resultats_imposable p !! nom b = Some [].
Proof.
  intros Hh.
  destruct (project_eq hyp self) as (rc & ri & Hp & Hrc & Hri).
  cbv zeta in Hp. eexists. split; [exact Hp |].
  cbn [res_annees res_total_cashflow res_total_imposable res_impots res_ps
       res_cf_after_tax res_resultats_cashflow res_resultats_imposable].
  assert (Ha : annees_of hyp = []) by (apply seqZ_nil; exact Hh).
  assert (H0 : horizon hyp = 0%nat) by (unfold horizon; lia).
  unfold totals_of, taxes_of. rewrite H0, Ha.
  repeat (split; [reflexivity |]).
  intros b Hb.
  rewrite Hrc, Hri, !decide_True by (by apply list_elem_of_fmap_2).
  assert (Hm : forall f : Bien -> Z -> Q,
            merged (fun b' => f b' <$> annees_of hyp) (biens self) (nom b)
            = []).
  { intros f. apply nil_length_inv. rewrite length_merged, H0. lia. }
  rewrite !Hm. split; reflexivity.
Qed.

Lemma horizon_nul_witness :
  exists p,
    _project_with_scenario app_homonymes
      (mkHyp "A" 0 0 0 0 0 0 (30 # 100) (172 # 1000) (-2)) = Some p /\
    res_total_cashflow p = [] /\
    res_resultats_cashflow p !! "A" = Some [].
Proof.
  destruct (horizon_nul app_homonymes
              (mkHyp "A" 0 0 0 0 0 0 (30 # 100) (172 # 1000) (-2)))
    as (p & Hp & _ & Ht & _ & _ & _ & _ & Hb); [by_eval |].
  exists p. split; [exact Hp |]. split; [exact Ht |].
  apply (Hb bien_A1). by left.
Defined.

(** X12. When the two tax rates are not negative, no year's tax or levy
    is negative and the cash flow after tax never exceeds the total cash
    flow; in a year whose total taxable income is not positive the two
    cash flows are equal. *)
Theorem after_tax_bounds (self : ImmoApp) (hyp : HypScenario) :
  0 <= tmi hyp -> 0 <= ps hyp ->
  exists p,
    _project_with_scenario self hyp = Some p /\
    forall i t c,
      res_total_imposable p !! i = Some t ->
      res_total_cashflow p !! i = Some c ->
      exists tax levy net,
        res_impots p !! i = Some tax /\
        res_ps p !! i = Some levy /\
        res_cf_after_tax p !! i = Some net /\
        0 <= tax /\ 0 <= levy /\ net <= c /\
        (t <= 0 -> net == c).
Proof.
  intros Htmi Hps.
  destruct (project_eq hyp self) as (rc & ri & Hp & _ & _).
  cbv zeta in Hp. eexists. split; [exact Hp |].
  cbn [res_total_cashflow res_total_imposable res_impots res_ps
       res_cf_after_tax].
  unfold taxes_of. intros i t c Ht Hc.
  exists (Py.max t 0 * tmi hyp), (Py.max t 0 * ps hyp),
         (c - Py.max t 0 * tmi hyp - Py.max t 0 * ps hyp).
  rewrite !lookup_zip_with, !list_lookup_fmap, Ht, Hc.
  repeat (split; [reflexivity |]).
  pose proof (Py_max_ge_r t 0) as Hm.
  assert (H1 : 0 <= Py.max t 0 * tmi hyp)
    by (apply Qmult_le_0_compat; assumption).
  assert (H2 : 0 <= Py.max t 0 * ps hyp)
    by (apply Qmult_le_0_compat; assumption).
  repeat (split; [lra |]).
  intros Hneg. unfold Py.max. destruct (Qlt_le_dec t 0).
  - ring.
  - assert (H0 : t == 0) by lra. rewrite H0. ring.
Qed.

Lemma after_tax_bounds_witness :
  exists p tax net,
    _project_with_scenario app_deux_biens hyp_plat = Some p /\
    res_impots p !! 0%nat = Some tax /\
    res_cf_after_tax p !! 0%nat = Some net /\
    0 <= tax /\ net <= 1800.
Proof.
  destruct (after_tax_bounds app_deux_biens hyp_plat)
    as (p & Hp & H); [by_eval | by_eval |].
  assert (Ht : res_total_imposable p !! 0%nat = Some 1800 /\
               res_total_cashflow p !! 0%nat = Some 1800).
  { vm_compute in Hp. injection Hp as <-. split; reflexivity. }
  destruct Ht as [Ht Hc].
  destruct (H 0%nat _ _ Ht Hc)
    as (tax & levy & net & H1 & _ & H3 & H4 & _ & H6 & _).
  exists p, tax, net. repeat (split; [assumption |]). exact H6.
Defined.

(** ** Order and number of the properties *)

Lemma Qsum_perm {A : Type} (f : A -> Q) (l l' : list A) :
  l ≡ₚ l' -> Qsum (f <$> l) == Qsum (f <$> l').
Proof.
  induction 1 as [| x l l' Hp IH | x y l | l l' l'' H1 IH1 H2 IH2];
    cbn [fmap list_fmap]; unfold Qsum in *; cbn [foldr].
  - reflexivity.
  - rewrite IH. reflexivity.
  - ring.
  - rewrite IH1. exact IH2.
Qed.

Lemma Py_max_proper (t t' : Q) : t == t' -> Py.max t 0 == Py.max t' 0.
Proof. intros H. rewrite !Py_max_Qmax, H. reflexivity. Qed.

(** The values found at an index of the projection. *)
Lemma lookup_projection (self : ImmoApp) (hyp : HypScenario) :
  exists p,
    _project_with_scenario self hyp = Some p /\
    (forall k, res_resultats_cashflow p !! k
               = if decide (k ∈ nom <$> biens self)
                 then Some (merged
                              (fun b => bien_cashflow hyp b <$> annees_of hyp)
                              (biens self) k)
                 else None) /\
    (forall k, res_resultats_imposable p !! k
               = if decide (k ∈ nom <$> biens self)
                 then Some (merged
                              (fun b => bien_imposable hyp b <$> annees_of hyp)
                              (biens self) k)
                 else None) /\
    res_annees p = annees_of hyp /\
    forall i, (i < horizon hyp)%nat ->
      let c := Py.sum (column_of (bien_cashflow hyp) (biens self) i) in
      let t := Py.sum (column_of (bien_imposable hyp) (biens self) i) in
      res_total_cashflow p !! i = Some c /\
      res_total_imposable p !! i = Some t /\
      res_cf_after_tax p !! i
      = Some (c - Py.max t 0 * tmi hyp - Py.max t 0 * ps hyp) /\
      res_impots p !! i = Some (Py.max t 0 * tmi hyp) /\
      res_ps p !! i = Some (Py.max t 0 * ps hyp).
Proof.
  destruct (project_eq hyp self) as (rc & ri & Hp & Hrc & Hri).
  cbv zeta in Hp. eexists. split; [exact Hp |].
  cbn [res_total_cashflow res_total_imposable res_resultats_cashflow
       res_resultats_imposable res_cf_after_tax res_impots res_ps
       res_annees].
  split; [exact Hrc |]. split; [exact Hri |]. split; [reflexivity |].
  intros i Hi. cbv zeta. unfold taxes_of.
  rewrite !lookup_zip_with, !list_lookup_fmap, !lookup_totals by exact Hi.
  repeat split; reflexivity.
Qed.

Lemma series_perm (f : Bien -> list Q) (bs bs' : list Bien) (k : string) :
  bs ≡ₚ bs' -> NoDup (nom <$> bs) ->
  (if decide (k ∈ nom <$> bs) then Some (merged f bs k) else None)
  = (if decide (k ∈ nom <$> bs') then Some (merged f bs' k) else None).
Proof.
  intros Hp Hnd.
  assert (Hnd' : NoDup (nom <$> bs')) by (by rewrite <- Hp).
  destruct (decide (k ∈ nom <$> bs)) as [Hin | Hnin].
  - rewrite decide_True by (by rewrite <- Hp).
    apply list_elem_of_fmap in Hin as (b & -> & Hb).
    rewrite (merged_unique _ _ _ Hnd Hb).
    rewrite (merged_unique f bs' b Hnd') by (by rewrite <- Hp).
    reflexivity.
  - rewrite decide_False by (by rewrite <- Hp). reflexivity.
Qed.

(** X13. When the names are distinct, the order in which the properties
    were entered does not matter: the projection returns the same series
    under every name, and equal totals and cash flow after tax for every
    year. *)
Theorem ordre_indifferent (self self' : ImmoApp) (hyp : HypScenario) :
  biens self ≡ₚ biens self' -> NoDup (nom <$> biens self) ->
  exists p p',
    _project_with_scenario self hyp = Some p /\
    _project_with_scenario self' hyp = Some p' /\
    res_resultats_cashflow p = res_resultats_cashflow p' /\
    res_resultats_imposable p = res_resultats_imposable p' /\
    forall i, (i < horizon hyp)%nat ->
      exists c c' t t' n n',
        res_total_cashflow p !! i = Some c /\
        res_total_cashflow p' !! i = Some c' /\
        res_total_imposable p !! i = Some t /\
        res_total_imposable p' !! i = Some t' /\
        res_cf_after_tax p !! i = Some n /\
        res_cf_after_tax p' !! i = Some n' /\
        c == c' /\ t == t' /\ n == n'.
Proof.
  intros Hperm Hnd.
  assert (Hnd' : NoDup (nom <$> biens self')) by (by rewrite <- Hperm).
  destruct (lookup_projection self hyp) as (p & Hp & Hrc & Hri & _ & Hi).
  destruct (lookup_projection self' hyp) as (p' & Hp' & Hrc' & Hri' & _ & Hi').
  exists p, p'. split; [exact Hp |]. split; [exact Hp' |].
  split; [apply map_eq; intros k; rewrite Hrc, Hrc';
          apply series_perm; assumption |].
  split; [apply map_eq; intros k; rewrite Hri, Hri';
          apply series_perm; assumption |].
  intros i Hlt.
  destruct (Hi i Hlt) as (H1 & H2 & H3 & _).
  destruct (Hi' i Hlt) as (H1' & H2' & H3' & _).
  do 6 eexists.
  repeat (split; [eassumption |]).
  assert (Ec : Py.sum (column_of (bien_cashflow hyp) (biens self) i)
               == Py.sum (column_of (bien_cashflow hyp) (biens self') i)).
  { rewrite !Py_sum_Qsum, (column_of_unique _ _ _ Hnd),
      (column_of_unique _ _ _ Hnd').
    apply Qsum_perm, Hperm. }
  assert (Et : Py.sum (column_of (bien_imposable hyp) (biens self) i)
               == Py.sum (column_of (bien_imposable hyp) (biens self') i)).
  { rewrite !Py_sum_Qsum, (column_of_unique _ _ _ Hnd),
      (column_of_unique _ _ _ Hnd').
    apply Qsum_perm, Hperm. }
  split; [exact Ec |]. split; [exact Et |].
  rewrite Ec, (Py_max_proper _ _ Et). reflexivity.
Qed.

Lemma ordre_indifferent_witness :
  exists p p' c c',
    _project_with_scenario app_deux_biens hyp_plat = Some p /\
    _project_with_scenario
      (mkApp (reverse (biens app_deux_biens)) (hypA app_deux_biens)
         (hypB app_deux_biens)) hyp_plat = Some p' /\
    res_resultats_cashflow p = res_resultats_cashflow p' /\
    res_total_cashflow p !! 0%nat = Some c /\
    res_total_cashflow p' !! 0%nat = Some c' /\
    c == c'.
Proof.
  destruct (ordre_indifferent app_deux_biens
              (mkApp (reverse (biens app_deux_biens)) (hypA app_deux_biens)
                 (hypB app_deux_biens)) hyp_plat)
    as (p & p' & Hp & Hp' & Hrc & _ & H).
  { cbn [biens]. symmetry. apply reverse_Permutation. }
  { apply (bool_decide_unpack _). by_eval. }
  destruct (H 0%nat) as (c & c' & t & t' & n & n' & H1 & H2 & _ & _ & _ & _
                         & Hc & _); [by_eval |].
  exists p, p', c, c'. repeat (split; [assumption |]). exact Hc.
Defined.

(** X14. Adding a property under a name that is not yet used, to
    properties of distinct names, keeps the series of the others, returns
    the series of the new one under its name, and adds its cash flow and
    its taxable income to the totals of every year. *)
Theorem ajout_bien (self : ImmoApp) (hyp : HypScenario) (b : Bien) :
  NoDup (nom <$> biens self) -> nom b ∉ nom <$> biens self ->
  exists p p',
    _project_with_scenario self hyp = Some p /\
    _project_with_scenario
      (mkApp (biens self ++ [b]) (hypA self) (hypB self)) hyp = Some p' /\
    (forall b0, b0 ∈ biens self ->
       res_resultats_cashflow p' !! nom b0
       = res_resultats_cashflow p !! nom b0 /\
       res_resultats_imposable p' !! nom b0
       = res_resultats_imposable p !! nom b0) /\
    res_resultats_cashflow p' !! nom b
    = Some (bien_cashflow hyp b <$> annees_of hyp) /\
    res_resultats_imposable p' !! nom b
    = Some (bien_imposable hyp b <$> annees_of hyp) /\
    forall i, (i < horizon hyp)%nat ->
      exists c c' t t',
        res_total_cashflow p !! i = Some c /\
        res_total_cashflow p' !! i = Some c' /\
        res_total_imposable p !! i = Some t /\
        res_total_imposable p' !! i = Some t' /\
        c' == c + bien_cashflow hyp b (1 + Z.of_nat i)%Z /\
        t' == t + bien_imposable hyp b (1 + Z.of_nat i)%Z.
Proof.
  intros Hnd Hfresh.
  set (self' := mkApp (biens self ++ [b]) (hypA self) (hypB self)).
  assert (Hnd' : NoDup (nom <$> biens self')).
  { cbn [biens self']. rewrite fmap_app. apply NoDup_app.
    split; [exact Hnd |]. split; [| apply NoDup_singleton].
    intros k Hk Hk'. apply list_elem_of_singleton in Hk'. congruence. }
  destruct (lookup_projection self hyp) as (p & Hp & Hrc & Hri & _ & Hi).
  destruct (lookup_projection self' hyp) as (p' & Hp' & Hrc' & Hri' & _ & Hi').
  exists p, p'. split; [exact Hp |]. split; [exact Hp' |].
  assert (Hb : b ∈ biens self')
    by (cbn [biens self']; apply elem_of_app; right; by left).
  split; [| split; [| split]].
  - intros b0 Hb0.
    assert (Hb0' : b0 ∈ biens self')
      by (cbn [biens self']; apply elem_of_app; by left).
    rewrite Hrc, Hrc', Hri, Hri'.
    rewrite !decide_True by (by apply list_elem_of_fmap_2).
    rewrite !(merged_unique _ _ _ Hnd Hb0), !(merged_unique _ _ _ Hnd' Hb0').
    split; reflexivity.
  - rewrite Hrc', decide_True by (by apply list_elem_of_fmap_2).
    rewrite (merged_unique _ _ _ Hnd' Hb). reflexivity.
  - rewrite Hri', decide_True by (by apply list_elem_of_fmap_2).
    rewrite (merged_unique _ _ _ Hnd' Hb). reflexivity.
  - intros i Hlt.
    destruct (Hi i Hlt) as (H1 & H2 & _).
    destruct (Hi' i Hlt) as (H1' & H2' & _).
    do 4 eexists. repeat (split; [eassumption |]).
    rewrite !Py_sum_Qsum, !(column_of_unique _ _ _ Hnd),
      !(column_of_unique _ _ _ Hnd').
    cbn [biens self']. rewrite !fmap_app, !Qsum_app.
    unfold Qsum. cbn [fmap list_fmap foldr]. split; ring.
Qed.

Lemma ajout_bien_witness :
  exists p p' c c',
    _project_with_scenario
      (mkApp [bien_A1] (hypA app_vide) (hypB app_vide)) hyp_plat = Some p /\
    _project_with_scenario
      (mkApp ([bien_A1] ++ [bien_sans_loyer]) (hypA app_vide)
         (hypB app_vide)) hyp_plat = Some p' /\
    res_total_cashflow p !! 0%nat = Some c /\
    res_total_cashflow p' !! 0%nat = Some c' /\
    c' == c + bien_cashflow hyp_plat bien_sans_loyer (1 + Z.of_nat 0)%Z.
Proof.
  destruct (ajout_bien (mkApp [bien_A1] (hypA app_vide) (hypB app_vide))
              hyp_plat bien_sans_loyer)
    as (p & p' & Hp & Hp' & _ & _ & _ & H).
  { apply (bool_decide_unpack _). by_eval. }
  { apply (bool_decide_unpack _). by_eval. }
  destruct (H 0%nat) as (c & c' & t & t' & H1 & H2 & _ & _ & Hc & _);
    [by_eval |].
  exists p, p', c, c'. repeat (split; [assumption |]). exact Hc.
Defined.

(** ** The dictionary of charges *)

Lemma charge_insert (b : Bien) (k key : string) (v : Q) :
  k <> key \/ (charges b !! k = None /\ v == 0) ->
  Spec.charge (with_charges b (<[k := v]> (charges b))) key
  == Spec.charge b key.
Proof.
  unfold Spec.charge, with_charges. cbn [charges].
  destruct (decide (k = key)) as [-> | Hne].
  - intros [H | [H Hv]]; [congruence |].
    rewrite lookup_insert_eq, H. exact Hv.
  - intros _. rewrite lookup_insert_ne by exact Hne. reflexivity.
Qed.

(** X15. The projection reads five keys of the charges, each with 0 as
    default: a charge stored under any other key changes neither the cash
    flow nor the taxable income, and a key that is missing counts as a
    charge of 0. *)
Theorem charges_lues (hyp : HypScenario) (b : Bien) (k : string) (v : Q)
    (y : Z) :
  k ∉ charge_keys \/ (charges b !! k = None /\ v == 0) ->
  let b' := with_charges b (<[k := v]> (charges b)) in
  bien_cashflow hyp b' y == bien_cashflow hyp b y /\
  bien_imposable hyp b' y == bien_imposable hyp b y.
Proof.
  intros H b'.
  assert (Hc : forall key, key ∈ charge_keys ->
             Spec.charge b' key == Spec.charge b key).
  { intros key Hkey. apply charge_insert.
    destruct H as [H | H]; [left | right; exact H].
    intros ->. contradiction. }
  assert (H1 := Hc "assurance" ltac:(apply (bool_decide_unpack _); by_eval)).
  assert (H2 := Hc "copro" ltac:(apply (bool_decide_unpack _); by_eval)).
  assert (H3 := Hc "taxe_fonciere" ltac:(apply (bool_decide_unpack _); by_eval)).
  assert (H4 := Hc "assurance_emprunteur"
                  ltac:(apply (bool_decide_unpack _); by_eval)).
  assert (H5 := Hc "autres" ltac:(apply (bool_decide_unpack _); by_eval)).
  rewrite !bien_imposable_spec, !bien_cashflow_spec.
  unfold Spec.cash_flow, Spec.taxable_income, Spec.charges_total,
    Spec.property_tax, Spec.compounded.
  rewrite H1, H2, H3, H4, H5. split; reflexivity.
Qed.

Lemma charges_lues_witness :
  bien_cashflow hyp_plat
    (with_charges bien_A1 (<["travaux" := 500]> (charges bien_A1))) 1
  == bien_cashflow hyp_plat bien_A1 1 /\
  bien_imposable hyp_plat
    (with_charges bien_A1 (<["travaux" := 500]> (charges bien_A1))) 1
  == bien_imposable hyp_plat bien_A1 1.
Proof.
  apply (charges_lues hyp_plat bien_A1 "travaux" 500 1).
  left. apply (bool_decide_unpack _). by_eval.
Defined.

(** * Dialogs and views *)

(** ** Editing a scenario *)

Lemma save_hypotheses_partial (e : HypEntries) (hyp : HypScenario) :
  let k := length (accepted (entry_values e)) in
  name (save_hypotheses e hyp).1 = name hyp /\
  hyp_values (save_hypotheses e hyp).1
  = accepted (entry_values e) ++ drop k (hyp_values hyp) /\
  ((save_hypotheses e hyp).2 = true <-> k = 9%nat).
Proof.
  destruct hyp as [n0 h1 h2 h3 h4 h5 h6 h7 h8 h9].
  destruct e as [e1 e2 e3 e4 e5 e6 e7 e8 e9].
  destruct e1 as [v1 |];
    [destruct e2 as [v2 |];
     [destruct e3 as [v3 |];
      [destruct e4 as [v4 |];
       [destruct e5 as [v5 |];
        [destruct e6 as [v6 |];
         [destruct e7 as [v7 |];
          [destruct e8 as [v8 |];
           [destruct e9 as [v9 |] | ] | ] | ] | ] | ] | ] | ] | ];
    cbv -[Qdiv inject_Z py_int];
    (split; [reflexivity |]); (split; [reflexivity |]);
    split; intros H; first [reflexivity | discriminate H].
Qed.

(** X16. Saving the scenario dialog is not atomic: the entries are
    assigned in the order of the dialog up to the first one that is
    rejected, so the scenario keeps the new values before it and the old
    values from it on; the save succeeds exactly when the nine entries
    are accepted.  The name of the scenario, the other scenario and the
    properties are never changed. *)
Theorem edit_hypotheses_partial (which : string) (e : HypEntries)
    (self : ImmoApp) :
  let self' := (edit_hypotheses which e self).1 in
  let ok := (edit_hypotheses which e self).2 in
  let old := if decide (which = "A") then hypA self else hypB self in
  let new := if decide (which = "A") then hypA self' else hypB self' in
  let k := length (accepted (entry_values e)) in
  biens self' = biens self /\
  (if decide (which = "A") then hypB self' = hypB self
   else hypA self' = hypA self) /\
  name new = name old /\
  hyp_values new = accepted (entry_values e) ++ drop k (hyp_values old) /\
  (ok = true <-> k = 9%nat).
Proof.
  cbv zeta. unfold edit_hypotheses.
  destruct (decide (which = "A")) as [Hw | Hw].
  - pose proof (save_hypotheses_partial e (hypA self)) as H.
    destruct (save_hypotheses e (hypA self)) as [hyp ok].
    cbn [fst snd biens hypA hypB] in *.
    split; [reflexivity |]. split; [reflexivity |]. exact H.
  - pose proof (save_hypotheses_partial e (hypB self)) as H.
    destruct (save_hypotheses e (hypB self)) as [hyp ok].
    cbn [fst snd biens hypA hypB] in *.
    split; [reflexivity |]. split; [reflexivity |]. exact H.
Qed.
(** ** Choosing a property by its name *)

Lemma open_for_head (name : string) (bs : list Bien) :
  open_for name bs = head (homonymes name bs).
Proof.
  induction bs as [| b bs IH]; [reflexivity |].
  cbn [open_for]. unfold homonymes in *. rewrite filter_cons.
  destruct (decide (nom b = name)); [reflexivity | exact IH].
Qed.

(** X17. The amortisation dialog opens the first property that bears the
    name selected: every name of the list opens a property of that name,
    a name that is not in the list opens nothing, a property opens its
    own table exactly when no earlier property has its name, and with
    distinct names every property opens its own table. *)
Theorem open_for_first (bs : list Bien) :
  (forall name,
     name ∈ nom <$> bs ->
     exists i b,
       open_for name bs = Some b /\ bs !! i = Some b /\ nom b = name /\
       forall j b', (j < i)%nat -> bs !! j = Some b' -> nom b' <> name) /\
  (forall name, name ∉ nom <$> bs -> open_for name bs = None) /\
  (forall b, b ∈ bs -> open_for (nom b) bs = Some (representant bs b)) /\
  (NoDup (nom <$> bs) ->
   forall b, b ∈ bs -> open_for (nom b) bs = Some b).
Proof.
  split; [| split; [| split]].
  - induction bs as [| b0 bs IH]; intros name Hin.
    + by apply elem_of_nil in Hin.
    + cbn [open_for]. destruct (decide (nom b0 = name)) as [Hn | Hn].
      * exists 0%nat, b0. repeat split; try assumption; try reflexivity.
        intros j b' Hj. lia.
      * rewrite fmap_cons in Hin.
        apply elem_of_cons in Hin as [-> | Hin]; [congruence |].
        destruct (IH name Hin) as (i & b & Ho & Hl & Hb & Hfirst).
        exists (S i), b. repeat split; try assumption.
        intros [| j] b' Hj Hl'.
        -- cbn in Hl'. congruence.
        -- cbn in Hl'. apply (Hfirst j b'); [lia | exact Hl'].
  - intros name Hnin. rewrite open_for_head.
    rewrite (homonymes_absent bs name Hnin). reflexivity.
  - intros b Hb. rewrite open_for_head.
    destruct (representant_head bs b Hb) as [rest ->]. reflexivity.
  - intros Hnd b Hb. rewrite open_for_head.
    rewrite (homonymes_unique bs b Hnd Hb). reflexivity.
Qed.

Lemma open_for_first_witness :
  open_for (nom bien_A2) (biens app_homonymes) = Some bien_A1 /\
  open_for "Z" (biens app_homonymes) = None.
Proof.
  destruct (open_for_first (biens app_homonymes)) as (_ & H2 & H3 & _).
  split.
  - rewrite (H3 bien_A2); [reflexivity |].
    change (biens app_homonymes) with [bien_A1; bien_A2].
    apply elem_of_cons. right. apply elem_of_cons. left. reflexivity.
  - apply H2. apply (bool_decide_unpack _). by_eval.
Defined.

(** ** Rounding for display *)



(** ** The amortisation view *)



(** ** The summary table *)










